(** * Rendezvous stores of gloo: a shallow embedding and its properties

    The development follows [gloo/rendezvous/store.h] (the [Store] base
    class with its generic batch and counter operations),
    [gloo/rendezvous/hash_store.{h,cc}], [gloo/rendezvous/file_store.{h,cc}]
    and [gloo/rendezvous/prefix_store.{h,cc}].

    - a key is a [string], a value ([std::vector<char>]) a [list byte];
    - a member function is a state transformer returning an [outcome]:
      a normal return, a thrown exception, undefined behaviour, or a call
      that is still blocked when the observed environment ends;
    - the in-process map is a [gmap string (list byte)]; the directory of
      the filesystem store is a map from path to file contents, plus the
      paths on which the operating system reports an error of its own;
    - [wait] reads the environment (condition-variable wake-ups, or clock
      readings between polls) from an explicit list of events. *)

From Stdlib Require Import ZArith Lia List Ascii.
From Stdlib Require String.
From Stdlib.Strings Require Import Byte.
From stdpp Require Import base option list strings gmap.

Local Open Scope Z_scope.

(** ** Outcomes and the state-passing monad *)

(** The two exception classes the stores throw. *)
Inductive exn : Type :=
  | runtime_error (what : string)      (* std::runtime_error(what) *)
  | system_error (errno : Z).          (* std::system_error(errno, system_category()) *)

Inductive outcome (A : Type) : Type :=
  | Returns (a : A)      (* the call returned [a] *)
  | Throws (e : exn)     (* the call left by an exception *)
  | Undefined            (* the call read outside a vector *)
  | Blocked.             (* the call has not returned yet *)

Arguments Returns {A} a.
Arguments Throws {A} e.
Arguments Undefined {A}.
Arguments Blocked {A}.

(** A member function over object state [S] with result [A]. The state
    that comes back is the state at the point where the call ended, also
    when it ended by an exception. *)
Definition M (S A : Type) : Type := S -> outcome A * S.

Definition ret {S A} (a : A) : M S A := fun s => (Returns a, s).

Definition bind {S A B} (m : M S A) (f : A -> M S B) : M S B :=
  fun s =>
    match m s with
    | (Returns a, s') => f a s'
    | (Throws e, s') => (Throws e, s')
    | (Undefined, s') => (Undefined, s')
    | (Blocked, s') => (Blocked, s')
    end.

Definition throw {S A} (e : exn) : M S A := fun s => (Throws e, s).
Definition undefined {S A} : M S A := fun s => (Undefined, s).

Notation "'let*' x ':=' m 'in' k" := (bind m (fun x => k))
  (at level 10, x name, m at level 100, k at level 200).
Notation "'do' m 'then' k" := (bind m (fun _ => k))
  (at level 10, m at level 100, k at level 200).

(** ** Bytes and the 8-byte image of an [int64_t] *)

Definition byte_of_Z (z : Z) : byte :=
  match Byte.of_N (Z.to_N (z mod 256)) with
  | Some b => b
  | None => x00
  end.

Definition Z_of_byte (b : byte) : Z := Z.of_N (Byte.to_N b).

(** Byte order of the host: [memcpy] between an [int64_t] and a
    [char] buffer copies the object representation as it is. *)
Inductive endianness : Type := LittleEndian | BigEndian.

Module Int64.

Definition size : nat := 8.                 (* sizeof(int64_t) *)
Definition modulus : Z := 2 ^ 64.
Definition min_signed : Z := - 2 ^ 63.
Definition max_signed : Z := 2 ^ 63 - 1.

Definition in_range (z : Z) : Prop := min_signed <= z <= max_signed.

(** Two's complement reading of an unsigned 64-bit pattern, and the
    reduction of an integer to the representable one it is congruent
    to (what [current += value] leaves on the supported targets). *)
Definition signed (u : Z) : Z :=
  if u mod modulus <? 2 ^ 63 then u mod modulus else u mod modulus - modulus.

Definition wrap (z : Z) : Z := signed z.

(** Least significant byte first. *)
Fixpoint bytes_le (n : nat) (u : Z) : list byte :=
  match n with
  | O => []
  | S n' => byte_of_Z u :: bytes_le n' (u / 256)
  end.

Fixpoint of_bytes_le (l : list byte) : Z :=
  match l with
  | [] => 0
  | b :: l' => Z_of_byte b + 256 * of_bytes_le l'
  end.

(** memcpy(newData.data(), &current, sizeof(int64_t)) *)
Definition encode (host : endianness) (z : Z) : list byte :=
  match host with
  | LittleEndian => bytes_le size (z mod modulus)
  | BigEndian => rev (bytes_le size (z mod modulus))
  end.

(** memcpy(&current, data.data(), sizeof(int64_t)) *)
Definition decode (host : endianness) (data : list byte) : Z :=
  match host with
  | LittleEndian => signed (of_bytes_le data)
  | BigEndian => signed (of_bytes_le (rev data))
  end.

End Int64.

(** ** The store interface *)

(** What a [Store&] gives access to: the three pure virtual operations
    and the overridable extended ones. [St] is the state the object owns
    or refers to, [Env] what its [wait] observes while it sleeps. *)
Module IStore.

Record t (St Env : Type) : Type := Build {
  set : string -> list byte -> M St unit;
  get : string -> M St (list byte);
  wait : list string -> Z -> Env -> M St unit;
  has_v2_support : bool;
  multi_get : list string -> M St (list (list byte));
  multi_set : list string -> list (list byte) -> M St unit;
  append : string -> list byte -> M St unit;
  add : string -> Z -> M St Z
}.

Arguments Build {St Env}.
Arguments set {St Env}.
Arguments get {St Env}.
Arguments wait {St Env}.
Arguments has_v2_support {St Env}.
Arguments multi_get {St Env}.
Arguments multi_set {St Env}.
Arguments append {St Env}.
Arguments add {St Env}.

End IStore.

(** ** [class Store]: the generic implementations (store.h)

    The bodies call [set] and [get] through the object, so they are
    parameterised by the final overriders of the two. *)
Module Store.

Definition kDefaultTimeout : Z := 30000.      (* milliseconds *)

Definition has_v2_support : bool := false.

Section Defaults.
Context {St : Type}.
Variable set : string -> list byte -> M St unit.
Variable get : string -> M St (list byte).

(* for (const auto& key : keys) result.push_back(get(key)); *)
Fixpoint multi_get_loop (keys : list string) (result : list (list byte))
  : M St (list (list byte)) :=
  match keys with
  | [] => ret result
  | key :: keys' =>
      let* data := get key in multi_get_loop keys' (result ++ [data])
  end.

Definition multi_get (keys : list string) : M St (list (list byte)) :=
  multi_get_loop keys [].

(* for (size_t i = 0; i < keys.size(); i++) set(keys[i], values[i]);
   [rest] is keys[i..]; values[i] is read without a bounds check. *)
Fixpoint multi_set_loop (rest : list string) (values : list (list byte))
  (i : nat) : M St unit :=
  match rest with
  | [] => ret tt
  | key :: rest' =>
      match values !! i with
      | Some value => do set key value then multi_set_loop rest' values (S i)
      | None => undefined
      end
  end.

Definition multi_set (keys : list string) (values : list (list byte))
  : M St unit :=
  multi_set_loop keys values 0%nat.

Definition append (key : string) (value : list byte) : M St unit :=
  let* existing := get key in
  set key (existing ++ value).

Definition add (host : endianness) (key : string) (value : Z) : M St Z :=
  let* data := get key in
  let current :=
    if Nat.eqb (length data) Int64.size then Int64.decode host data else 0 in
  let current := Int64.wrap (current + value) in
  let newData := Int64.encode host current in
  do set key newData then
  ret current.

End Defaults.

End Store.

(** ** [class HashStore] (hash_store.cc) *)
Module HashStore.

(** One sleep on [cv_]: what other threads stored while the lock was
    released, and whether the deadline had passed when the sleep ended
    (which only [wait_until] reports). *)
Record wakeup : Type := Wakeup {
  stored : list (string * list byte);
  deadline_passed : bool
}.

Definition store_all (writes : list (string * list byte))
  (map_ : gmap string (list byte)) : gmap string (list byte) :=
  foldl (fun m kv => <[kv.1 := kv.2]> m) map_ writes.

Definition set (key : string) (data : list byte)
  : M (gmap string (list byte)) unit :=
  fun map_ => (Returns tt, <[key := data]> map_).

Definition get (key : string) : M (gmap string (list byte)) (list byte) :=
  fun map_ =>
    match map_ !! key with
    | None => (Throws (runtime_error ("Key not found: " +:+ key)), map_)
    | Some data => (Returns data, map_)
    end.

(* the inner for loop of wait *)
Fixpoint allFound (map_ : gmap string (list byte)) (keys : list string)
  : bool :=
  match keys with
  | [] => true
  | key :: keys' =>
      match map_ !! key with
      | None => false
      | Some _ => allFound map_ keys'
      end
  end.

Section Wait.
Variable kNoTimeout : Z.     (* the no-timeout sentinel of the library *)

Fixpoint wait_loop (keys : list string) (timeout : Z) (env : list wakeup)
  (map_ : gmap string (list byte)) : outcome unit * gmap string (list byte) :=
  if allFound map_ keys then (Returns tt, map_)
  else
    match env with
    | [] => (Blocked, map_)
    | w :: env' =>
        let map' := store_all (stored w) map_ in
        if negb (Z.eqb timeout kNoTimeout) then
          if deadline_passed w
          then (Throws (runtime_error "Wait timeout"), map')
          else wait_loop keys timeout env' map'
        else wait_loop keys timeout env' map'
    end.

Definition wait (keys : list string) (timeout : Z) (env : list wakeup)
  : M (gmap string (list byte)) unit :=
  wait_loop keys timeout env.

Definition vtable (host : endianness)
  : IStore.t (gmap string (list byte)) (list wakeup) :=
  IStore.Build set get wait Store.has_v2_support
    (Store.multi_get get) (Store.multi_set set)
    (Store.append set get) (Store.add set get host).
End Wait.

End HashStore.

(** ** [class FileStore] (file_store.cc) *)
Module FileStore.

(** The shared directory tree as the store sees it: the regular files
    by path, and the paths on which [open] and [stat] fail for a reason
    of the system's own, with the [errno] they leave (EACCES, ENOTDIR,
    ENAMETOOLONG, a missing parent directory, ...). Paths are compared
    as the strings the store builds; two spellings of one file ("k" and
    "./k") are two entries here, so statements that relate different
    keys are made for plain file names only (see [plain_name]). *)
Record filesystem : Type := Filesystem {
  files : gmap string (list byte);
  faults : gmap string Z
}.

Definition ENOENT : Z := 2.

(** One round of the polling loop that found a key missing: the
    reading of the steady clock against [start], in milliseconds, and
    the files other processes wrote during the sleep that follows. *)
Record poll : Type := Poll {
  elapsed : Z;
  written : list (string * list byte)
}.

Definition write_all (writes : list (string * list byte))
  (fs : filesystem) : filesystem :=
  Filesystem (foldl (fun m pd => <[pd.1 := pd.2]> m) (files fs) writes)
             (faults fs).

(** [stat(path, &st)]: [None] for a return of 0, else the [errno]. *)
Definition stat (fs : filesystem) (path : string) : option Z :=
  match faults fs !! path with
  | Some errno => Some errno
  | None =>
      match files fs !! path with
      | Some _ => None
      | None => Some ENOENT
      end
  end.

Inductive readiness : Type :=
  | Ready
  | NotReady
  | StatFailed (errno : Z).

Section Instance.
Variable basePath_ : string.

Definition realPath (path : string) : string :=
  basePath_ +:+ "/" +:+ path.

Definition set (key : string) (data : list byte) : M filesystem unit :=
  fun fs =>
    let path := realPath key in
    match faults fs !! path with
    | Some errno => (Throws (system_error errno), fs)
    | None =>
        (Returns tt, Filesystem (<[path := data]> (files fs)) (faults fs))
    end.

Definition get (key : string) : M filesystem (list byte) :=
  fun fs =>
    let path := realPath key in
    match faults fs !! path with
    | Some errno => (Throws (system_error errno), fs)
    | None =>
        match files fs !! path with
        | None => (Throws (system_error ENOENT), fs)
        | Some contents =>
            let size := length contents in          (* file.tellg() *)
            (Returns (take size contents), fs)      (* file.read(data.data(), size) *)
        end
    end.

(* the inner for loop of wait *)
Fixpoint ready (fs : filesystem) (keys : list string) : readiness :=
  match keys with
  | [] => Ready
  | key :: keys' =>
      match stat fs (realPath key) with
      | None => ready fs keys'
      | Some errno =>
          if Z.eqb errno ENOENT then NotReady else StatFailed errno
      end
  end.

Fixpoint wait_loop (keys : list string) (timeout : Z) (env : list poll)
  (fs : filesystem) : outcome unit * filesystem :=
  match ready fs keys with
  | Ready => (Returns tt, fs)
  | StatFailed errno => (Throws (system_error errno), fs)
  | NotReady =>
      match env with
      | [] => (Blocked, fs)
      | p :: env' =>
          if Z.ltb timeout (elapsed p)
          then (Throws (runtime_error "Timeout waiting for keys"), fs)
          else wait_loop keys timeout env' (write_all (written p) fs)
      end
  end.

Definition wait (keys : list string) (timeout : Z) (env : list poll)
  : M filesystem unit :=
  wait_loop keys timeout env.

Definition vtable (host : endianness) : IStore.t filesystem (list poll) :=
  IStore.Build set get wait Store.has_v2_support
    (Store.multi_get get) (Store.multi_set set)
    (Store.append set get) (Store.add set get host).
End Instance.

End FileStore.

(** ** [class PrefixStore] (prefix_store.cc) *)
Module PrefixStore.

Section Decorator.
Context {St Env : Type}.
Variable prefix_ : string.
Variable store_ : IStore.t St Env.

Definition set (key : string) (data : list byte) : M St unit :=
  IStore.set store_ (prefix_ +:+ key) data.

Definition get (key : string) : M St (list byte) :=
  IStore.get store_ (prefix_ +:+ key).

(* for (const auto& key : keys) prefixedKeys.push_back(prefix_ + key); *)
Definition prefixed (keys : list string) : list string :=
  map (fun key => prefix_ +:+ key) keys.

Definition wait (keys : list string) (timeout : Z) (env : Env) : M St unit :=
  IStore.wait store_ (prefixed keys) timeout env.

Definition has_v2_support : bool := IStore.has_v2_support store_.

Definition multi_get (keys : list string) : M St (list (list byte)) :=
  if negb (IStore.has_v2_support store_) then Store.multi_get get keys
  else IStore.multi_get store_ (prefixed keys).

Definition multi_set (keys : list string) (values : list (list byte))
  : M St unit :=
  if negb (IStore.has_v2_support store_) then Store.multi_set set keys values
  else IStore.multi_set store_ (prefixed keys) values.

Definition append (key : string) (data : list byte) : M St unit :=
  if negb (IStore.has_v2_support store_) then Store.append set get key data
  else IStore.append store_ (prefix_ +:+ key) data.

Definition add (host : endianness) (key : string) (value : Z) : M St Z :=
  if negb (IStore.has_v2_support store_) then Store.add set get host key value
  else IStore.add store_ (prefix_ +:+ key) value.

Definition vtable (host : endianness) : IStore.t St Env :=
  IStore.Build set get wait has_v2_support
    multi_get multi_set append (add host).
End Decorator.

End PrefixStore.

(** ** Histories of [set] calls and error kinds *)

(** The state a store is in after the calls [set(k1, v1)], [set(k2, v2)],
    ... made one after the other, whatever each of them came to. *)
Definition after_sets {St : Type} (set : string -> list byte -> M St unit)
  (history : list (string * list byte)) (s : St) : St :=
  foldl (fun s kv => (set kv.1 kv.2 s).2) s history.

(** The exceptions by which the two backends report a key that is not
    there: the in-process store by its "Key not found" runtime error, the
    filesystem store by the system error of an [open] that found no file. *)
Definition missing_key (e : exn) : bool :=
  match e with
  | runtime_error what => String.prefix "Key not found: " what
  | system_error errno => Z.eqb errno FileStore.ENOENT
  end.

(** A key that names a file of the base directory by itself: not
    empty, not "." or "..", and without a path separator or a NUL
    character (where [c_str()] would end the path). For such keys
    different keys are different files. *)
Definition plain_name (k : string) : bool :=
  negb (String.eqb k "") && negb (String.eqb k ".")
  && negb (String.eqb k "..")
  && forallb (fun c => negb (Ascii.eqb c "/"%char)
                       && negb (Ascii.eqb c Ascii.zero))
       (String.list_ascii_of_string k).

(** A string that [c_str()] hands to the system in full. *)
Definition no_nul (s : string) : bool :=
  forallb (fun c => negb (Ascii.eqb c Ascii.zero))
    (String.list_ascii_of_string s).

(** The errno of an [open] below a path component that is a regular
    file. *)
Definition ENOTDIR : Z := 20.

(** [p] is an initial segment of [s]. *)
Definition starts_with (p s : string) : Prop := exists r, s = p +:+ r.

(** ** Reference behaviours the batch operation is compared with *)

(** The calls [set(k1, v1)], [set(k2, v2)], ... in this order, stopping
    at the first one that does not return. *)
Fixpoint set_each {St : Type} (set : string -> list byte -> M St unit)
  (pairs : list (string * list byte)) : M St unit :=
  match pairs with
  | [] => ret tt
  | kv :: pairs' => do set kv.1 kv.2 then set_each set pairs'
  end.

(** Two sequential [set] calls with prefixed keys on the backing store:
    [set(p + "a", v1)] and then [set(p + "b", v2)]. *)
Definition two_prefixed_sets {St Env : Type} (store_ : IStore.t St Env)
  (p : string) (v1 v2 : list byte) : M St unit :=
  do IStore.set store_ (p +:+ "a") v1 then
  IStore.set store_ (p +:+ "b") v2.

(** ** [class Topology] (example/alexnet/topology.h)

    The rendezvous of the trainer is followed by the choice of the peers
    each rank exchanges data with. An [int] is a [Z]; the values below
    stay far inside its range for the configurations the constructor
    accepts. A call has no state to change, so its result is an
    [outcome] alone; [Undefined] also stands for a division by zero. *)
Module Topology.

(* ConfigParser::TopologyConfig *)
Record TopologyConfig : Type := Config {
  type : string;               (* "ring", "hierarchical" *)
  num_nodes : Z;
  permutations : list Z
}.

Record Connection : Type := Conn {
  src : Z;
  dst : Z;
  data_size : Z;
  ring_id : Z
}.

(** [std::find(first, last, value) - first]: the offset of the first
    element equal to [value], the length of the range when there is
    none. *)
Fixpoint find_offset (l : list Z) (value : Z) : nat :=
  match l with
  | [] => O
  | x :: l' => if Z.eqb x value then O else S (find_offset l' value)
  end.

(** [std::rotate(first, first + middle, last)], defined when
    [first + middle] lies in the range. *)
Definition rotate (l : list Z) (middle : Z) : option (list Z) :=
  if (0 <=? middle) && (middle <=? Z.of_nat (length l))
  then Some (drop (Z.to_nat middle) l ++ take (Z.to_nat middle) l)
  else None.

(** The validation run by the constructor; the result is [num_rings_]. *)
Definition initializeConnections (config_ : TopologyConfig) : outcome Z :=
  if negb (String.eqb (type config_) "ring")
     && negb (String.eqb (type config_) "hierarchical")
  then Throws (runtime_error ("Unsupported topology type: " +:+ type config_))
  else if num_nodes config_ <=? 0
  then Throws (runtime_error "Number of nodes must be positive")
  else if Nat.eqb (length (permutations config_)) 0
  then Throws (runtime_error "At least one permutation must be specified")
  else if existsb (fun rotation =>
                     (rotation <? 0) || (num_nodes config_ <=? rotation))
                  (permutations config_)
  then Throws (runtime_error
                 "Permutation rotations must be between 0 and num_nodes-1")
  else if String.eqb (type config_) "ring"
  then Returns (if Nat.eqb (length (permutations config_)) 0 then 1
                else Z.of_nat (length (permutations config_)))
  else if String.eqb (type config_) "hierarchical"
  then Returns 2
  else Undefined.

Section Methods.
Variable config_ : TopologyConfig.

(* the body of the loop over ring_id, for the rotations from
   permutations[ring_id] on *)
Fixpoint ring_connections (rank : Z) (rotations : list Z) (ring_id : nat)
  (connections : list Connection) : outcome (list Connection) :=
  match rotations with
  | [] => Returns connections
  | rotation :: rotations' =>
      match rotate (seqZ 0 (num_nodes config_)) rotation with
      | None => Undefined
      | Some permutation =>
          let pos := Z.of_nat (find_offset permutation rank) in
          if num_nodes config_ =? 0 then Undefined
          else
            let next_pos := Z.rem (pos + 1) (num_nodes config_) in
            match permutation !! Z.to_nat next_pos with
            | None => Undefined
            | Some next =>
                ring_connections rank rotations' (S ring_id)
                  (connections ++ [Conn rank next 0 (Z.of_nat ring_id)])
            end
      end
  end.

Definition getReduceScatterConnections (rank : Z)
  : outcome (list Connection) :=
  if String.eqb (type config_) "ring" then
    ring_connections rank (permutations config_) 0 []
  else if String.eqb (type config_) "hierarchical" then
    let level_size := Z.quot (num_nodes config_) 2 in
    if level_size =? 0 then Undefined
    else
      let level := Z.quot rank level_size in
      let pos_in_level := Z.rem rank level_size in
      let next_in_level :=
        level * level_size + Z.rem (pos_in_level + 1) level_size in
      let connections := [Conn rank next_in_level 0 0] in
      if level <? 1 then
        let next_level_node := (level + 1) * level_size + pos_in_level in
        Returns (connections ++ [Conn rank next_level_node 0 1])
      else Returns connections
  else Returns [].

Definition getAllGatherConnections (rank : Z) : outcome (list Connection) :=
  getReduceScatterConnections rank.

End Methods.

End Topology.

(** * Properties *)

(** ** Facts about the byte codec *)

Lemma Z_of_byte_of_Z (z : Z) : Z_of_byte (byte_of_Z z) = z mod 256.
Proof.
  unfold Z_of_byte, byte_of_Z.
  assert (Hr : 0 <= z mod 256 < 256) by (apply Z.mod_pos_bound; lia).
  destruct (Byte.of_N (Z.to_N (z mod 256))) as [b|] eqn:E.
  - apply Byte.to_of_N in E. rewrite E. lia.
  - apply Byte.of_N_None_iff in E. lia.
Qed.

Lemma length_bytes_le (n : nat) (u : Z) : length (Int64.bytes_le n u) = n.
Proof. revert u; induction n as [|n IH]; intros u; simpl; [done | by rewrite IH]. Qed.

Lemma of_bytes_le_bytes_le (n : nat) (u : Z) :
  Int64.of_bytes_le (Int64.bytes_le n u) = u mod 256 ^ Z.of_nat n.
Proof.
  revert u; induction n as [|n IH]; intros u.
  - simpl. by rewrite Z.mod_1_r.
  - cbn [Int64.bytes_le Int64.of_bytes_le].
    rewrite Z_of_byte_of_Z, IH, Nat2Z.inj_succ, Z.pow_succ_r by lia.
    rewrite Z.rem_mul_r by lia. reflexivity.
Qed.

Lemma length_encode (host : endianness) (z : Z) :
  length (Int64.encode host z) = Int64.size.
Proof.
  destruct host; unfold Int64.encode;
    rewrite ?length_rev, length_bytes_le; reflexivity.
Qed.

Lemma signed_in_range (z : Z) : Int64.in_range z -> Int64.signed z = z.
Proof.
  unfold Int64.in_range, Int64.min_signed, Int64.max_signed, Int64.signed,
    Int64.modulus.
  intros Hz. destruct (Z_lt_le_dec z 0) as [Hneg|Hpos].
  - replace (z mod 2 ^ 64) with (z + 2 ^ 64).
    + destruct (Z.ltb_spec (z + 2 ^ 64) (2 ^ 63)); lia.
    + apply Z.mod_unique with (q := -1); lia.
  - rewrite Z.mod_small by lia.
    destruct (Z.ltb_spec z (2 ^ 63)); lia.
Qed.

Lemma signed_mod (z : Z) : Int64.signed (z mod Int64.modulus) = Int64.signed z.
Proof. unfold Int64.signed. by rewrite Z.mod_mod. Qed.

Lemma decode_encode (host : endianness) (z : Z) :
  Int64.decode host (Int64.encode host z) = Int64.wrap z.
Proof.
  unfold Int64.decode, Int64.encode, Int64.wrap.
  destruct host; rewrite ?rev_involutive, of_bytes_le_bytes_le;
    change (256 ^ Z.of_nat Int64.size) with Int64.modulus;
    by rewrite Z.mod_mod, signed_mod.
Qed.

(** ** Facts about strings used as keys and paths *)

Lemma string_app_nil (k : string) : "" +:+ k = k.
Proof. reflexivity. Qed.

Lemma string_app_cons (c : ascii) (p k : string) :
  String c p +:+ k = String c (p +:+ k).
Proof. reflexivity. Qed.

Lemma string_length_app (a b : string) :
  String.length (a +:+ b) = (String.length a + String.length b)%nat.
Proof.
  induction a as [|c a IH]; [done|].
  rewrite string_app_cons. cbn. by rewrite IH.
Qed.

Lemma string_app_inj_r (p1 p2 k : string) : p1 +:+ k = p2 +:+ k -> p1 = p2.
Proof.
  revert p2; induction p1 as [|c p1 IH]; intros [|d p2] H.
  - done.
  - apply (f_equal String.length) in H.
    rewrite (string_length_app "" k), (string_length_app (String d p2) k) in H.
    cbn in H. lia.
  - apply (f_equal String.length) in H.
    rewrite (string_length_app "" k), (string_length_app (String c p1) k) in H.
    cbn in H. lia.
  - rewrite !string_app_cons in H. injection H as -> H. f_equal. by apply IH.
Qed.

Lemma string_app_eq_comparable (p1 p2 k1 k2 : string) :
  p1 +:+ k1 = p2 +:+ k2 -> starts_with p1 p2 \/ starts_with p2 p1.
Proof.
  revert p2; induction p1 as [|c p1 IH]; intros p2 H.
  - left. by exists p2.
  - destruct p2 as [|d p2].
    + right. by exists (String c p1).
    + rewrite !string_app_cons in H. injection H as -> H.
      destruct (IH _ H) as [[r ->]|[r ->]]; [left | right]; by exists r.
Qed.

Lemma string_prefix_app (p k : string) : String.prefix p (p +:+ k) = true.
Proof.
  induction p as [|c p IH].
  - rewrite string_app_nil. by destruct k.
  - rewrite string_app_cons. cbn. by destruct (ascii_dec c c).
Qed.

Lemma realPath_inj (base k1 k2 : string) :
  FileStore.realPath base k1 = FileStore.realPath base k2 -> k1 = k2.
Proof.
  unfold FileStore.realPath. intros H.
  apply String.app_inj in H. by apply String.app_inj in H.
Qed.

(** ** Single operations of the two backends *)

Lemma hash_get_absent (map_ : gmap string (list byte)) (k : string) :
  map_ !! k = None ->
  HashStore.get k map_ = (Throws (runtime_error ("Key not found: " +:+ k)), map_).
Proof. intros H. unfold HashStore.get. by rewrite H. Qed.

Lemma hash_get_present (map_ : gmap string (list byte)) (k : string)
  (data : list byte) :
  map_ !! k = Some data -> HashStore.get k map_ = (Returns data, map_).
Proof. intros H. unfold HashStore.get. by rewrite H. Qed.

Lemma file_get_present (base k : string) (fs : FileStore.filesystem)
  (data : list byte) :
  FileStore.faults fs !! FileStore.realPath base k = None ->
  FileStore.files fs !! FileStore.realPath base k = Some data ->
  FileStore.get base k fs = (Returns data, fs).
Proof.
  intros Hf Hd. unfold FileStore.get. cbv zeta. rewrite Hf, Hd.
  by rewrite firstn_all.
Qed.

Lemma file_get_absent (base k : string) (fs : FileStore.filesystem) :
  FileStore.faults fs !! FileStore.realPath base k = None ->
  FileStore.files fs !! FileStore.realPath base k = None ->
  FileStore.get base k fs = (Throws (system_error FileStore.ENOENT), fs).
Proof. intros Hf Hd. unfold FileStore.get. cbv zeta. by rewrite Hf, Hd. Qed.

Lemma hash_after_sets_lookup (history : list (string * list byte))
  (map_ : gmap string (list byte)) (k : string) :
  k ∉ history.*1 ->
  after_sets HashStore.set history map_ !! k = map_ !! k.
Proof.
  revert map_; induction history as [|[k' v] h IH]; intros map_ Hk; [done|].
  cbn in Hk. apply not_elem_of_cons in Hk as [Hne Hk].
  unfold after_sets in *. cbn. rewrite IH by done.
  by rewrite lookup_insert_ne.
Qed.

Lemma file_after_sets_faults (base : string)
  (history : list (string * list byte)) (fs : FileStore.filesystem) :
  FileStore.faults (after_sets (FileStore.set base) history fs)
  = FileStore.faults fs.
Proof.
  revert fs; induction history as [|[k' v] h IH]; intros fs; [done|].
  unfold after_sets in *. cbn [foldl]. rewrite IH.
  unfold FileStore.set. cbn. by destruct (FileStore.faults fs !! _).
Qed.

Lemma file_after_sets_lookup (base : string)
  (history : list (string * list byte)) (fs : FileStore.filesystem)
  (k : string) :
  k ∉ history.*1 ->
  FileStore.files (after_sets (FileStore.set base) history fs)
    !! FileStore.realPath base k
  = FileStore.files fs !! FileStore.realPath base k.
Proof.
  revert fs; induction history as [|[k' v] h IH]; intros fs Hk; [done|].
  cbn in Hk. apply not_elem_of_cons in Hk as [Hne Hk].
  unfold after_sets in *. cbn [foldl]. rewrite IH by done.
  unfold FileStore.set. cbn.
  destruct (FileStore.faults fs !! _); [done|]. cbn.
  rewrite lookup_insert_ne; [done|].
  intros Heq. apply realPath_inj in Heq. congruence.
Qed.

(** ** The generic counter [Store::add] *)

Section Add.
Context {St : Type}.
Variable set : string -> list byte -> M St unit.
Variable get : string -> M St (list byte).
Variable host : endianness.

(** An exception of [get] leaves [add] before anything is written. *)
Lemma add_get_throws (k : string) (d : Z) (e : exn) (s s' : St) :
  get k s = (Throws e, s') ->
  Store.add set get host k d s = (Throws e, s').
Proof. intros H. unfold Store.add, bind. by rewrite H. Qed.

(** A stored value of another length counts as zero. *)
Lemma add_other_length (k : string) (d : Z) (data : list byte) (s s' : St) :
  get k s = (Returns data, s') ->
  length data <> Int64.size ->
  Int64.in_range d ->
  Store.add set get host k d s
  = (do set k (Int64.encode host d) then ret d) s'.
Proof.
  intros Hget Hlen Hd. unfold Store.add. unfold bind at 1. rewrite Hget.
  apply Nat.eqb_neq in Hlen. rewrite Hlen.
  change (0 + d) with d. unfold Int64.wrap.
  by rewrite (signed_in_range d Hd).
Qed.

(** A stored counter is read back and incremented. *)
Lemma add_stored_counter (k : string) (n d : Z) (s s' : St) :
  get k s = (Returns (Int64.encode host n), s') ->
  Int64.in_range n ->
  Int64.in_range (n + d) ->
  Store.add set get host k d s
  = (do set k (Int64.encode host (n + d)) then ret (n + d)) s'.
Proof.
  intros Hget Hn Hd. unfold Store.add. unfold bind at 1. rewrite Hget.
  rewrite length_encode, Nat.eqb_refl, decode_encode.
  unfold Int64.wrap. by rewrite (signed_in_range n Hn), (signed_in_range _ Hd).
Qed.
End Add.

(** C5. In the in-process store, [set(k, v)] returns, leaves [v] as the
    value of [k] whatever was stored before, and a following [get(k)]
    returns exactly [v]. *)
Theorem hash_store_set_then_get (map_ : gmap string (list byte))
  (k : string) (v : list byte) :
  HashStore.set k v map_ = (Returns tt, <[k := v]> map_) /\
  HashStore.get k (HashStore.set k v map_).2 = (Returns v, <[k := v]> map_).
Proof.
  split; [reflexivity|]. cbn. apply hash_get_present. apply lookup_insert_eq.
Qed.

(** C6, as the code has it. A key that no [set] call of the store's
    history named is not served by [get], which returns no value and
    cannot block. The in-process store throws its "Key not found"
    runtime error, for every key. The filesystem store throws the
    system error of the failed [open] with ENOENT when the directory
    held no files at first, the keys set so far and the key asked for
    are plain file names of the base directory (whose path has no NUL
    character in it) and the system has no error of its own for the
    key's path. Both are missing-key errors. *)
Theorem get_of_unset_key_fails (history : list (string * list byte))
  (k base : string) (faults : gmap string Z) :
  k ∉ history.*1 ->
  let map_ := after_sets HashStore.set history ∅ in
  let fs := after_sets (FileStore.set base) history (FileStore.Filesystem ∅ faults) in
  (HashStore.get k map_
     = (Throws (runtime_error ("Key not found: " +:+ k)), map_) /\
   missing_key (runtime_error ("Key not found: " +:+ k)) = true) /\
  (no_nul base = true ->
   Forall (fun k' => plain_name k' = true) (k :: history.*1) ->
   faults !! FileStore.realPath base k = None ->
   FileStore.get base k fs = (Throws (system_error FileStore.ENOENT), fs) /\
   missing_key (system_error FileStore.ENOENT) = true).
Proof.
  intros Hk map_ fs. split; [split|].
  - apply hash_get_absent. subst map_.
    rewrite hash_after_sets_lookup by done. apply lookup_empty.
  - apply string_prefix_app.
  - intros _ _ Hf. split; [|reflexivity].
    apply file_get_absent; subst fs.
    + by rewrite file_after_sets_faults.
    + rewrite file_after_sets_lookup by done. apply lookup_empty.
Qed.

Lemma get_of_unset_key_fails_witness :
  (HashStore.get "rank1.addr"
     (after_sets HashStore.set [("rank0.addr", [x01; x02])] ∅)
   = (Throws (runtime_error "Key not found: rank1.addr"),
      after_sets HashStore.set [("rank0.addr", [x01; x02])] ∅)) /\
  (FileStore.get "/tmp/gloo" "rank1.addr"
     (after_sets (FileStore.set "/tmp/gloo") [("rank0.addr", [x01; x02])]
        (FileStore.Filesystem ∅ ∅))
   = (Throws (system_error FileStore.ENOENT),
      after_sets (FileStore.set "/tmp/gloo") [("rank0.addr", [x01; x02])]
        (FileStore.Filesystem ∅ ∅))).
Proof.
  assert (Hk : "rank1.addr" ∉ [("rank0.addr", [x01; x02])].*1).
  { cbn. intros H. apply list_elem_of_singleton in H. discriminate H. }
  pose proof (get_of_unset_key_fails
    [("rank0.addr", [x01; x02])] "rank1.addr" "/tmp/gloo" ∅ Hk) as [Hm Hf].
  split.
  - exact (proj1 Hm).
  - refine (proj1 (Hf _ _ _)).
    + reflexivity.
    + repeat constructor.
    + apply lookup_empty.
Defined.

(** C6, as stated, fails in the filesystem store: after [set("rank0",
    v)] the key "rank0/x" has never been set, yet [get("rank0/x")] does
    not report a missing key; its [open] fails below the regular file
    "rank0" and the call throws the system error with ENOTDIR. *)
Lemma get_of_unset_key_other_error :
  ("rank0/x" ∉ [("rank0", [x01])].*1) /\
  (FileStore.get "/tmp/gloo" "rank0/x"
     (after_sets (FileStore.set "/tmp/gloo") [("rank0", [x01])]
        (FileStore.Filesystem ∅ {["/tmp/gloo/rank0/x" := ENOTDIR]}))
   = (Throws (system_error ENOTDIR),
      FileStore.Filesystem {["/tmp/gloo/rank0" := [x01]]}
        {["/tmp/gloo/rank0/x" := ENOTDIR]})) /\
  missing_key (system_error ENOTDIR) = false.
Proof.
  split; [|split; reflexivity].
  cbn. intros H. apply list_elem_of_singleton in H. discriminate H.
Qed.

(** C1. The generic [add] does not count from zero when the key is
    absent: in both backends [add(k, d)] leaves by the exception of
    [get] ("Key not found" in the in-process store, the system error of
    the failed [open] in the filesystem store), returns no total and
    stores nothing. *)
Theorem add_on_absent_key_throws (host : endianness) (k base : string) (d : Z)
  (map_ : gmap string (list byte)) (fs : FileStore.filesystem) :
  map_ !! k = None ->
  FileStore.faults fs !! FileStore.realPath base k = None ->
  FileStore.files fs !! FileStore.realPath base k = None ->
  Store.add HashStore.set HashStore.get host k d map_
    = (Throws (runtime_error ("Key not found: " +:+ k)), map_) /\
  Store.add (FileStore.set base) (FileStore.get base) host k d fs
    = (Throws (system_error FileStore.ENOENT), fs).
Proof.
  intros Hk Hf Hfile. split; apply add_get_throws.
  - by apply hash_get_absent.
  - by apply file_get_absent.
Qed.

Lemma add_on_absent_key_throws_witness :
  Store.add HashStore.set HashStore.get LittleEndian "counter" 5 ∅
  = (Throws (runtime_error "Key not found: counter"), ∅).
Proof.
  refine (proj1 (add_on_absent_key_throws LittleEndian "counter" "/tmp/gloo" 5
    ∅ (FileStore.Filesystem ∅ ∅) _ _ _)); apply lookup_empty.
Defined.

(** C8. When the value stored under [k] is not 8 bytes long, [add(k, d)]
    starts from zero in both backends: it returns [d] and leaves under
    [k] the 8-byte image of [d] in the byte order of the host, which
    decodes to [d] again. *)
Theorem add_over_value_of_other_length (host : endianness) (k base : string)
  (d : Z) (data : list byte) (map_ : gmap string (list byte))
  (fs : FileStore.filesystem) :
  length data <> Int64.size ->
  Int64.in_range d ->
  map_ !! k = Some data ->
  FileStore.faults fs !! FileStore.realPath base k = None ->
  FileStore.files fs !! FileStore.realPath base k = Some data ->
  Store.add HashStore.set HashStore.get host k d map_
    = (Returns d, <[k := Int64.encode host d]> map_) /\
  Store.add (FileStore.set base) (FileStore.get base) host k d fs
    = (Returns d,
       FileStore.Filesystem
         (<[FileStore.realPath base k := Int64.encode host d]> (FileStore.files fs))
         (FileStore.faults fs)) /\
  length (Int64.encode host d) = 8%nat /\
  Int64.decode host (Int64.encode host d) = d.
Proof.
  intros Hlen Hd Hm Hf Hfile. repeat split.
  - by rewrite (add_other_length _ _ host k d data map_ map_
                  (hash_get_present _ _ _ Hm) Hlen Hd).
  - rewrite (add_other_length _ _ host k d data fs fs
               (file_get_present _ _ _ _ Hf Hfile) Hlen Hd).
    unfold bind, FileStore.set. cbv zeta. by rewrite Hf.
  - apply length_encode.
  - rewrite decode_encode. by apply signed_in_range.
Qed.

Lemma add_over_value_of_other_length_witness :
  Store.add HashStore.set HashStore.get LittleEndian "counter" 7
    {["counter" := [x01; x02; x03]]}
  = (Returns 7,
     <["counter" := Int64.encode LittleEndian 7]> {["counter" := [x01; x02; x03]]}).
Proof.
  refine (proj1 (add_over_value_of_other_length LittleEndian "counter" "/tmp/gloo"
    7 [x01; x02; x03] {["counter" := [x01; x02; x03]]}
    (FileStore.Filesystem {["/tmp/gloo/counter" := [x01; x02; x03]]} ∅)
    _ _ _ _ _)).
  - unfold Int64.size. cbn. lia.
  - unfold Int64.in_range, Int64.min_signed, Int64.max_signed. lia.
  - apply lookup_singleton_eq.
  - apply lookup_empty.
  - apply lookup_singleton_eq.
Defined.

(** ** What [get] and [wait] leave behind *)

Lemma hash_get_frame (k : string) (map_ : gmap string (list byte)) :
  (HashStore.get k map_).2 = map_.
Proof. unfold HashStore.get. by destruct (map_ !! k). Qed.

Lemma file_get_frame (base k : string) (fs : FileStore.filesystem) :
  (FileStore.get base k fs).2 = fs.
Proof.
  unfold FileStore.get. cbv zeta.
  destruct (FileStore.faults fs !! _); [done|].
  by destruct (FileStore.files fs !! _).
Qed.

Lemma multi_get_loop_frame {St : Type} (get : string -> M St (list byte)) :
  (forall k s, (get k s).2 = s) ->
  forall keys result s, (Store.multi_get_loop get keys result s).2 = s.
Proof.
  intros Hget keys. induction keys as [|k keys IH]; intros result s; [done|].
  cbn [Store.multi_get_loop]. unfold bind.
  specialize (Hget k s). destruct (get k s) as [[data|e| |] s']; cbn in Hget;
    subst s'; [apply IH | done..].
Qed.

Lemma file_write_all_nil (fs : FileStore.filesystem) :
  FileStore.write_all [] fs = fs.
Proof. by destruct fs. Qed.

(** With nobody else writing, the map a waiter is handed back is the
    one it started from. *)
Lemma hash_wait_quiet (kNoTimeout timeout : Z) (keys : list string)
  (env : list HashStore.wakeup) (map_ : gmap string (list byte)) :
  Forall (fun w => HashStore.stored w = []) env ->
  (HashStore.wait kNoTimeout keys timeout env map_).2 = map_.
Proof.
  unfold HashStore.wait. intros Hq. induction Hq as [|w env Hw Hq IH].
  - cbn. by destruct (HashStore.allFound map_ keys).
  - cbn [HashStore.wait_loop]. rewrite Hw. cbn [HashStore.store_all foldl].
    destruct (HashStore.allFound map_ keys); [done|].
    destruct (negb _); [destruct (HashStore.deadline_passed w)|]; done.
Qed.

Lemma file_wait_quiet (base : string) (timeout : Z) (keys : list string)
  (env : list FileStore.poll) (fs : FileStore.filesystem) :
  Forall (fun p => FileStore.written p = []) env ->
  (FileStore.wait base keys timeout env fs).2 = fs.
Proof.
  unfold FileStore.wait. intros Hq. induction Hq as [|p env Hp Hq IH].
  - cbn. by destruct (FileStore.ready base fs keys).
  - cbn [FileStore.wait_loop]. rewrite Hp, file_write_all_nil.
    destruct (FileStore.ready base fs keys); [done| |done].
    by destruct (Z.ltb timeout (FileStore.elapsed p)).
Qed.

(** With other threads writing, the map is the initial one with the
    writes of the sleeps the waiter went through, and nothing else. *)
Lemma hash_wait_only_others (kNoTimeout timeout : Z) (keys : list string)
  (env : list HashStore.wakeup) (map_ : gmap string (list byte)) :
  exists n : nat,
    (HashStore.wait kNoTimeout keys timeout env map_).2
    = HashStore.store_all (concat (HashStore.stored <$> take n env)) map_.
Proof.
  unfold HashStore.wait. revert map_.
  induction env as [|w env IH]; intros map_.
  - exists 0%nat. cbn. by destruct (HashStore.allFound map_ keys).
  - cbn [HashStore.wait_loop].
    destruct (HashStore.allFound map_ keys); [by exists 0%nat|].
    destruct (IH (HashStore.store_all (HashStore.stored w) map_)) as [n Hn].
    assert (Hstep : forall m : nat,
      HashStore.store_all
        (concat (HashStore.stored <$> take (S m) (w :: env))) map_
      = HashStore.store_all (concat (HashStore.stored <$> take m env))
          (HashStore.store_all (HashStore.stored w) map_)).
    { intros m. cbn. unfold HashStore.store_all. by rewrite foldl_app. }
    destruct (negb _); [destruct (HashStore.deadline_passed w)|].
    + exists 1%nat. by rewrite Hstep.
    + exists (S n). by rewrite Hstep.
    + exists (S n). by rewrite Hstep.
Qed.

(** C9. [get], [multi_get] and [wait] do not write: in both backends the
    mapping after [get(k)] and [multi_get(keys)], returned or thrown, is
    the mapping before, and so is the mapping after [wait(keys, t)],
    returned, timed out or still blocked, when no other thread or process
    writes meanwhile. *)
Theorem get_and_wait_do_not_write (kNoTimeout timeout : Z) (base k : string)
  (keys : list string) (map_ : gmap string (list byte))
  (fs : FileStore.filesystem) (sleeps : list HashStore.wakeup)
  (polls : list FileStore.poll) :
  Forall (fun w => HashStore.stored w = []) sleeps ->
  Forall (fun p => FileStore.written p = []) polls ->
  ((HashStore.get k map_).2 = map_ /\
   (Store.multi_get HashStore.get keys map_).2 = map_ /\
   (HashStore.wait kNoTimeout keys timeout sleeps map_).2 = map_) /\
  ((FileStore.get base k fs).2 = fs /\
   (Store.multi_get (FileStore.get base) keys fs).2 = fs /\
   (FileStore.wait base keys timeout polls fs).2 = fs).
Proof.
  intros Hs Hp. repeat split.
  - apply hash_get_frame.
  - apply multi_get_loop_frame. intros; apply hash_get_frame.
  - by apply hash_wait_quiet.
  - apply file_get_frame.
  - apply multi_get_loop_frame. intros; apply file_get_frame.
  - by apply file_wait_quiet.
Qed.

Lemma get_and_wait_do_not_write_witness :
  (HashStore.wait 0 ["rank0.addr"; "rank1.addr"] 5000
     [HashStore.Wakeup [] false; HashStore.Wakeup [] true]
     {["rank0.addr" := [x0a]]}).2
  = {["rank0.addr" := [x0a]]}.
Proof.
  refine (proj2 (proj2 (proj1 (get_and_wait_do_not_write 0 5000 "/tmp/gloo"
    "rank0.addr" ["rank0.addr"; "rank1.addr"] {["rank0.addr" := [x0a]]}
    (FileStore.Filesystem ∅ ∅)
    [HashStore.Wakeup [] false; HashStore.Wakeup [] true]
    [FileStore.Poll 0 []] _ _)))).
  - repeat constructor.
  - repeat constructor.
Defined.

(** ** [wait] and the no-timeout sentinel *)

(** The in-process store tests for the sentinel: with it, no sequence of
    wake-ups makes [wait] throw; it returns once every key is in the map
    and is blocked as long as one is missing. *)
Lemma hash_wait_no_timeout (kNoTimeout : Z) (keys : list string)
  (env : list HashStore.wakeup) (map_ : gmap string (list byte)) :
  match HashStore.wait kNoTimeout keys kNoTimeout env map_ with
  | (Returns _, map') => HashStore.allFound map' keys = true
  | (Blocked, map') => HashStore.allFound map' keys = false
  | _ => False
  end.
Proof.
  unfold HashStore.wait. revert map_.
  induction env as [|w env IH]; intros map_; cbn [HashStore.wait_loop].
  - by destruct (HashStore.allFound map_ keys) eqn:E.
  - destruct (HashStore.allFound map_ keys) eqn:E; [done|].
    rewrite Z.eqb_refl. cbn [negb]. apply IH.
Qed.

(** The filesystem store does not: a clock reading beyond the timeout
    it was given ends the wait, whatever that timeout stands for. *)
Lemma file_wait_deadline (base : string) (keys : list string) (timeout : Z)
  (p : FileStore.poll) (env : list FileStore.poll) (fs : FileStore.filesystem) :
  FileStore.ready base fs keys = FileStore.NotReady ->
  timeout < FileStore.elapsed p ->
  FileStore.wait base keys timeout (p :: env) fs
  = (Throws (runtime_error "Timeout waiting for keys"), fs).
Proof.
  intros Hr Ht. unfold FileStore.wait. cbn [FileStore.wait_loop]. rewrite Hr.
  apply Z.ltb_lt in Ht. by rewrite Ht.
Qed.

(** C2. Given the no-timeout sentinel as its timeout, the filesystem
    store's [wait] still throws its timeout error: while a key stays
    unpublished, the call ends at the latest with the first poll whose
    clock reading lies beyond the value of the sentinel, whatever that
    value is. *)
Theorem file_store_wait_ignores_no_timeout (kNoTimeout : Z) (base : string)
  (keys : list string) (before : list FileStore.poll) (p : FileStore.poll)
  (after : list FileStore.poll) (fs : FileStore.filesystem) :
  FileStore.ready base fs keys = FileStore.NotReady ->
  Forall (fun q => FileStore.written q = []) before ->
  kNoTimeout < FileStore.elapsed p ->
  FileStore.wait base keys kNoTimeout (before ++ p :: after) fs
  = (Throws (runtime_error "Timeout waiting for keys"), fs).
Proof.
  intros Hr Hq Ht. induction Hq as [|q before Hw Hq IH].
  - by apply file_wait_deadline.
  - unfold FileStore.wait in *. cbn [app FileStore.wait_loop]. rewrite Hr.
    destruct (Z.ltb kNoTimeout (FileStore.elapsed q)); [done|].
    by rewrite Hw, file_write_all_nil.
Qed.

Lemma file_store_wait_ignores_no_timeout_witness :
  FileStore.wait "/tmp/gloo" ["rank1.addr"] 0
    [FileStore.Poll 0 []; FileStore.Poll 10 []]
    (FileStore.Filesystem ∅ ∅)
  = (Throws (runtime_error "Timeout waiting for keys"),
     FileStore.Filesystem ∅ ∅).
Proof.
  apply (file_store_wait_ignores_no_timeout 0 "/tmp/gloo" ["rank1.addr"]
    [FileStore.Poll 0 []] (FileStore.Poll 10 []) []
    (FileStore.Filesystem ∅ ∅)).
  - reflexivity.
  - repeat constructor.
  - cbn. lia.
Defined.

(** ** Empty values in the filesystem store *)

(** C10. In the filesystem store an empty value is a publication like
    any other: once [set(k, empty)] has returned, [wait({k}, t)] returns
    at its first look at the directory, for every timeout and without
    waiting for the environment, and [get(k)] returns the empty byte
    sequence. *)
Theorem file_store_empty_value (base k : string) (timeout : Z)
  (env : list FileStore.poll) (fs fs' : FileStore.filesystem) :
  FileStore.set base k [] fs = (Returns tt, fs') ->
  FileStore.wait base [k] timeout env fs' = (Returns tt, fs') /\
  FileStore.get base k fs' = (Returns [], fs').
Proof.
  unfold FileStore.set. cbv zeta. intros Hset.
  destruct (FileStore.faults fs !! FileStore.realPath base k) eqn:Hf;
    [discriminate Hset|].
  injection Hset as <-.
  assert (Hfile : FileStore.files
            (FileStore.Filesystem
               (<[FileStore.realPath base k := []]> (FileStore.files fs))
               (FileStore.faults fs)) !! FileStore.realPath base k = Some [])
    by apply lookup_insert_eq.
  split.
  - unfold FileStore.wait.
    assert (Hr : FileStore.ready base
              (FileStore.Filesystem
                 (<[FileStore.realPath base k := []]> (FileStore.files fs))
                 (FileStore.faults fs)) [k] = FileStore.Ready).
    { cbn [FileStore.ready]. unfold FileStore.stat.
      cbn [FileStore.faults]. by rewrite Hf, Hfile. }
    destruct env; cbn [FileStore.wait_loop]; by rewrite Hr.
  - by apply file_get_present.
Qed.

Lemma file_store_empty_value_witness :
  FileStore.get "/tmp/gloo" "rank0.addr"
    (FileStore.Filesystem {["/tmp/gloo/rank0.addr" := []]} ∅)
  = (Returns [], FileStore.Filesystem {["/tmp/gloo/rank0.addr" := []]} ∅).
Proof.
  refine (proj2 (file_store_empty_value "/tmp/gloo" "rank0.addr" 0 []
    (FileStore.Filesystem ∅ ∅)
    (FileStore.Filesystem {["/tmp/gloo/rank0.addr" := []]} ∅) _)).
  reflexivity.
Defined.

(** ** The generic batch [Store::multi_set] *)

Lemma bind_ret_tt {St : Type} (m : M St unit) (s : St) :
  (do m then ret tt) s = m s.
Proof. unfold bind, ret. by destruct (m s) as [[[]|e| |] s']. Qed.

Lemma multi_set_loop_in_range {St : Type}
  (set : string -> list byte -> M St unit) (values : list (list byte))
  (rest : list string) (i : nat) (s : St) :
  (i + length rest <= length values)%nat ->
  Store.multi_set_loop set rest values i s
  = set_each set (zip rest (drop i values)) s.
Proof.
  revert i s; induction rest as [|key rest IH]; intros i s Hlen; [done|].
  cbn [length] in Hlen. cbn [Store.multi_set_loop].
  destruct (values !! i) as [value|] eqn:Hv.
  - rewrite (drop_S _ _ _ Hv). cbn [zip zip_with set_each fst snd].
    unfold bind. destruct (set key value s) as [[[]|e| |] s']; [|done..].
    apply IH. lia.
  - apply lookup_ge_None in Hv. lia.
Qed.

Lemma hash_set_each (pairs : list (string * list byte))
  (map_ : gmap string (list byte)) :
  set_each HashStore.set pairs map_ = (Returns tt, HashStore.store_all pairs map_).
Proof.
  revert map_; induction pairs as [|[k v] pairs IH]; intros map_; [done|].
  cbn [set_each]. unfold bind. cbn. apply IH.
Qed.

(** Too few values: the loop reads [values[i]] past the end of the
    vector once the stored pairs are exhausted. *)
Lemma hash_multi_set_short (values : list (list byte)) (rest : list string)
  (i : nat) (map_ : gmap string (list byte)) :
  (i <= length values < i + length rest)%nat ->
  (Store.multi_set_loop HashStore.set rest values i map_).1 = Undefined.
Proof.
  revert i map_; induction rest as [|key rest IH]; intros i map_ Hlen.
  - cbn in Hlen. lia.
  - cbn [length] in Hlen. cbn [Store.multi_set_loop].
    destruct (values !! i) as [value|] eqn:Hv; [|done].
    unfold bind. cbn. apply IH.
    apply lookup_lt_Some in Hv. lia.
Qed.

(** C3, as the code has it. [multi_set] compares no lengths and throws
    no error of its own: whenever there are at least as many values as
    keys (equal lengths included) it is the calls [set(keys[i],
    values[i])] in order with the surplus values ignored, and on the
    in-process store it returns with exactly these pairs stored. *)
Theorem multi_set_checks_no_lengths {St : Type}
  (set : string -> list byte -> M St unit) (keys : list string)
  (values : list (list byte)) (s : St) (map_ : gmap string (list byte)) :
  (length keys <= length values)%nat ->
  Store.multi_set set keys values s = set_each set (zip keys values) s /\
  Store.multi_set HashStore.set keys values map_
  = (Returns tt, HashStore.store_all (zip keys values) map_).
Proof.
  intros Hlen. unfold Store.multi_set.
  rewrite !multi_set_loop_in_range by (cbn; lia).
  rewrite drop_0. split; [done | apply hash_set_each].
Qed.

Lemma multi_set_checks_no_lengths_witness :
  Store.multi_set HashStore.set ["a"; "b"] [[x01]; [x02]; [x03]] ∅
  = (Returns tt, HashStore.store_all [("a", [x01]); ("b", [x02])] ∅).
Proof.
  refine (proj2 (multi_set_checks_no_lengths HashStore.set ["a"; "b"]
    [[x01]; [x02]; [x03]] ∅ ∅ _)).
  cbn. lia.
Defined.

(** C3, as stated, fails: one key and two values differ in length, yet
    [multi_set] returns normally with the first value stored. *)
Lemma multi_set_mismatch_returns :
  length ["a"] <> length [[x01]; [x02]] /\
  Store.multi_set HashStore.set ["a"] [[x01]; [x02]] ∅
  = (Returns tt, {["a" := [x01]]}).
Proof. split; [cbn; lia | reflexivity]. Qed.

(** ** The prefix decorator *)

Lemma prefix_get_after_set_other (pA pB kA kB : string)
  (v : list byte) (kNoTimeout : Z) (host : endianness)
  (map_ : gmap string (list byte)) :
  pA +:+ kA <> pB +:+ kB ->
  (PrefixStore.get pB (HashStore.vtable kNoTimeout host) kB
     (PrefixStore.set pA (HashStore.vtable kNoTimeout host) kA v map_).2).1
  = (PrefixStore.get pB (HashStore.vtable kNoTimeout host) kB map_).1.
Proof.
  intros Hne. unfold PrefixStore.get, PrefixStore.set. cbn.
  unfold HashStore.get. rewrite lookup_insert_ne by done.
  by destruct (map_ !! (pB +:+ kB)).
Qed.

Lemma prefixed_keys_differ (pA pB kA kB : string) :
  pA <> pB ->
  kA = kB \/ (~ starts_with pA pB /\ ~ starts_with pB pA) ->
  pA +:+ kA <> pB +:+ kB.
Proof.
  intros Hne [->|[HAB HBA]] Heq.
  - by apply string_app_inj_r in Heq.
  - apply string_app_eq_comparable in Heq as [?|?]; tauto.
Qed.

(** C4, as the code has it. Two decorators with distinct prefixes over
    one in-process store map a logical key to two different physical
    keys, and any two logical keys to different physical keys when
    neither prefix is an initial segment of the other; in both cases a
    [set] through the first leaves what a [get] through the second
    returns or throws as it was. *)
Theorem prefix_isolation (pA pB kA kB : string) (v : list byte)
  (kNoTimeout : Z) (host : endianness) (map_ : gmap string (list byte)) :
  pA <> pB ->
  kA = kB \/ (~ starts_with pA pB /\ ~ starts_with pB pA) ->
  pA +:+ kA <> pB +:+ kB /\
  (PrefixStore.get pB (HashStore.vtable kNoTimeout host) kB
     (PrefixStore.set pA (HashStore.vtable kNoTimeout host) kA v map_).2).1
  = (PrefixStore.get pB (HashStore.vtable kNoTimeout host) kB map_).1.
Proof.
  intros Hne Hk.
  pose proof (prefixed_keys_differ pA pB kA kB Hne Hk) as Hphys.
  split; [done|]. by apply prefix_get_after_set_other.
Qed.

Lemma prefix_isolation_witness :
  (PrefixStore.get "job1/" (HashStore.vtable 0 LittleEndian) "x"
     (PrefixStore.set "job0/" (HashStore.vtable 0 LittleEndian) "x" [x01] ∅).2).1
  = (PrefixStore.get "job1/" (HashStore.vtable 0 LittleEndian) "x" ∅).1.
Proof.
  refine (proj2 (prefix_isolation "job0/" "job1/" "x" "x"
    [x01] 0 LittleEndian ∅ _ _)).
  - discriminate.
  - left. reflexivity.
Defined.

(** C4, as stated, fails: the prefixes "a" and "ab" differ, yet the
    key "bx" under the first and the key "x" under the second are one
    physical key, and a value set through the first decorator is what
    [get] through the second returns. *)
Lemma prefix_key_spaces_overlap :
  "a" <> "ab" /\
  "a" +:+ "bx" = "ab" +:+ "x" /\
  PrefixStore.get "ab" (HashStore.vtable 0 LittleEndian) "x"
    (PrefixStore.set "a" (HashStore.vtable 0 LittleEndian) "bx" [x01] ∅).2
  = (Returns [x01], {["abx" := [x01]]}).
Proof. split; [discriminate | split; reflexivity]. Qed.

(** The fallback of the decorator's [multi_set], for any batch that has
    a value for every key. *)
Lemma prefix_multi_set_fallback {St Env : Type} (store_ : IStore.t St Env)
  (p : string) (keys : list string) (values : list (list byte)) (s : St) :
  IStore.has_v2_support store_ = false ->
  (length keys <= length values)%nat ->
  PrefixStore.multi_set p store_ keys values s
  = set_each (IStore.set store_) (zip (PrefixStore.prefixed p keys) values) s.
Proof.
  intros Hv2 Hlen. unfold PrefixStore.multi_set. rewrite Hv2. cbn [negb].
  unfold Store.multi_set. rewrite multi_set_loop_in_range by (cbn; lia).
  rewrite drop_0. clear Hlen. revert values s.
  induction keys as [|k keys IH]; intros [|v values] s; try done.
  cbn [zip zip_with PrefixStore.prefixed map set_each fst snd].
  unfold bind. unfold PrefixStore.set at 1.
  destruct (IStore.set store_ (p +:+ k) v s) as [[[]|e| |] s']; [|done..].
  apply IH.
Qed.

(** C7. Over a backing store without v2 support, [multi_set(["a","b"],
    [v1, v2])] through a decorator with prefix [p] is, outcome and final
    state, the two calls [set(p + "a", v1)] and [set(p + "b", v2)] on
    the backing store. *)
Theorem prefix_multi_set_fallback_equiv {St Env : Type}
  (store_ : IStore.t St Env) (host : endianness) (p : string)
  (v1 v2 : list byte) (s : St) :
  IStore.has_v2_support store_ = false ->
  IStore.multi_set (PrefixStore.vtable p store_ host) ["a"; "b"] [v1; v2] s
  = two_prefixed_sets store_ p v1 v2 s.
Proof.
  intros Hv2. cbn [IStore.multi_set PrefixStore.vtable].
  rewrite prefix_multi_set_fallback by (done || (cbn; lia)).
  cbn [zip zip_with PrefixStore.prefixed map set_each fst snd].
  unfold two_prefixed_sets, bind.
  destruct (IStore.set store_ (p +:+ "a") v1 s) as [[[]|e| |] s1]; [|done..].
  by destruct (IStore.set store_ (p +:+ "b") v2 s1) as [[[]|e| |] s2].
Qed.

Lemma prefix_multi_set_fallback_equiv_witness :
  IStore.multi_set
    (PrefixStore.vtable "ctx/" (HashStore.vtable 0 LittleEndian) LittleEndian)
    ["a"; "b"] [[x01]; [x02]] ∅
  = two_prefixed_sets (HashStore.vtable 0 LittleEndian) "ctx/" [x01] [x02] ∅.
Proof.
  apply (prefix_multi_set_fallback_equiv (HashStore.vtable 0 LittleEndian)
    LittleEndian "ctx/" [x01] [x02] ∅).
  reflexivity.
Defined.


(** * Further properties of the stores *)

(** ** The generic batch [Store::multi_get] *)

Lemma store_all_lookup_other (pairs : list (string * list byte))
  (map_ : gmap string (list byte)) (k : string) :
  k ∉ pairs.*1 -> HashStore.store_all pairs map_ !! k = map_ !! k.
Proof. apply hash_after_sets_lookup. Qed.

Lemma store_all_app (xs ys : list (string * list byte))
  (map_ : gmap string (list byte)) :
  HashStore.store_all (xs ++ ys) map_
  = HashStore.store_all ys (HashStore.store_all xs map_).
Proof. unfold HashStore.store_all. apply foldl_app. Qed.

Lemma hash_multi_get_loop_present (keys : list string)
  (values result : list (list byte)) (map_ : gmap string (list byte)) :
  Forall2 (fun k v => map_ !! k = Some v) keys values ->
  Store.multi_get_loop HashStore.get keys result map_
  = (Returns (result ++ values), map_).
Proof.
  intros H. revert result. induction H as [|k v keys values Hk H IH]; intros result.
  - cbn. by rewrite app_nil_r.
  - cbn [Store.multi_get_loop]. unfold bind.
    rewrite (hash_get_present _ _ _ Hk), IH. by rewrite <- app_assoc.
Qed.

(** X1. On the in-process store, [multi_get] over keys that are all
    present returns their values in the order of the keys, one per key
    (a repeated key gives its value again), and leaves the map as it
    was. *)
Theorem hash_multi_get_present (keys : list string)
  (values : list (list byte)) (map_ : gmap string (list byte)) :
  Forall2 (fun k v => map_ !! k = Some v) keys values ->
  Store.multi_get HashStore.get keys map_ = (Returns values, map_).
Proof. intros H. unfold Store.multi_get. by rewrite (hash_multi_get_loop_present _ values). Qed.

Lemma hash_multi_get_present_witness :
  Store.multi_get HashStore.get ["b"; "a"; "b"]
    {["a" := [x01]; "b" := [x02]]}
  = (Returns [[x02]; [x01]; [x02]], {["a" := [x01]; "b" := [x02]]}).
Proof.
  apply (hash_multi_get_present ["b"; "a"; "b"] [[x02]; [x01]; [x02]]).
  repeat constructor.
Defined.

(** X2. [multi_get] gives no partial result: at the first key that is
    absent the in-process store's call leaves by the "Key not found"
    exception naming that key, whatever was read before it and whatever
    comes after it, and the map is as it was. *)
Theorem hash_multi_get_missing (before after : list string) (k : string)
  (map_ : gmap string (list byte)) :
  Forall (fun k' => is_Some (map_ !! k')) before ->
  map_ !! k = None ->
  Store.multi_get HashStore.get (before ++ k :: after) map_
  = (Throws (runtime_error ("Key not found: " +:+ k)), map_).
Proof.
  intros Hb Hk. unfold Store.multi_get. generalize (@nil (list byte)).
  induction Hb as [|k' before [v Hv] Hb IH]; intros result.
  - cbn [app Store.multi_get_loop]. unfold bind.
    by rewrite (hash_get_absent _ _ Hk).
  - cbn [app Store.multi_get_loop]. unfold bind.
    rewrite (hash_get_present _ _ _ Hv). apply IH.
Qed.

Lemma hash_multi_get_missing_witness :
  Store.multi_get HashStore.get ["rank0"; "rank1"; "rank2"]
    {["rank0" := [x01]; "rank2" := [x03]]}
  = (Throws (runtime_error "Key not found: rank1"),
     {["rank0" := [x01]; "rank2" := [x03]]}).
Proof.
  apply (hash_multi_get_missing ["rank0"] ["rank2"] "rank1").
  - repeat constructor. by exists [x01].
  - reflexivity.
Defined.

Lemma store_all_zip_lookup (keys : list string) (values : list (list byte))
  (map_ : gmap string (list byte)) :
  NoDup keys -> length keys = length values ->
  Forall2 (fun k v => HashStore.store_all (zip keys values) map_ !! k = Some v)
    keys values.
Proof.
  intros Hnd. revert values map_.
  induction Hnd as [|k keys Hk Hnd IH]; intros [|v values] map_ Hlen;
    try discriminate Hlen; [constructor|].
  cbn [length] in Hlen. injection Hlen as Hlen.
  constructor; [|apply (IH values (<[k := v]> map_) Hlen)].
  change (HashStore.store_all (zip (k :: keys) (v :: values)) map_)
    with (HashStore.store_all (zip keys values) (<[k := v]> map_)).
  rewrite store_all_lookup_other; [apply lookup_insert_eq|].
  rewrite fst_zip by lia. done.
Qed.

(** X3. Batch round trip on the in-process store: after
    [multi_set(keys, values)] with pairwise distinct keys and one value
    per key, [multi_get(keys)] returns exactly [values]. *)
Theorem hash_multi_set_then_multi_get (keys : list string)
  (values : list (list byte)) (map_ : gmap string (list byte)) :
  NoDup keys ->
  length keys = length values ->
  Store.multi_set HashStore.set keys values map_
    = (Returns tt, HashStore.store_all (zip keys values) map_) /\
  Store.multi_get HashStore.get keys
    (Store.multi_set HashStore.set keys values map_).2
  = (Returns values, HashStore.store_all (zip keys values) map_).
Proof.
  intros Hnd Hlen.
  assert (Hset : Store.multi_set HashStore.set keys values map_
            = (Returns tt, HashStore.store_all (zip keys values) map_)).
  { unfold Store.multi_set. rewrite multi_set_loop_in_range by (cbn; lia).
    rewrite drop_0. apply hash_set_each. }
  split; [done|]. rewrite Hset. cbn [snd].
  apply hash_multi_get_present. by apply store_all_zip_lookup.
Qed.

Lemma hash_multi_set_then_multi_get_witness :
  Store.multi_get HashStore.get ["a"; "b"]
    (Store.multi_set HashStore.set ["a"; "b"] [[x01]; [x02]] ∅).2
  = (Returns [[x01]; [x02]],
     HashStore.store_all (zip ["a"; "b"] [[x01]; [x02]]) ∅).
Proof.
  refine (proj2 (hash_multi_set_then_multi_get ["a"; "b"] [[x01]; [x02]] ∅ _ _)).
  - apply NoDup_cons. split.
    + intros H. apply list_elem_of_singleton in H. discriminate H.
    + apply NoDup_singleton.
  - reflexivity.
Defined.

(** ** The generic [Store::append] *)

Lemma hash_append_run (k : string) (old v : list byte)
  (map_ : gmap string (list byte)) :
  map_ !! k = Some old ->
  Store.append HashStore.set HashStore.get k v map_
  = (Returns tt, <[k := old ++ v]> map_).
Proof.
  intros Hk. unfold Store.append, bind. by rewrite (hash_get_present _ _ _ Hk).
Qed.

(** X4. [append] on a key that holds a value: in both backends the call
    returns and the key then holds the old bytes followed by the new
    ones; all other keys are as they were. *)
Theorem append_to_present_key (base k : string) (old v : list byte)
  (map_ : gmap string (list byte)) (fs : FileStore.filesystem) :
  map_ !! k = Some old ->
  FileStore.faults fs !! FileStore.realPath base k = None ->
  FileStore.files fs !! FileStore.realPath base k = Some old ->
  Store.append HashStore.set HashStore.get k v map_
    = (Returns tt, <[k := old ++ v]> map_) /\
  Store.append (FileStore.set base) (FileStore.get base) k v fs
    = (Returns tt,
       FileStore.Filesystem
         (<[FileStore.realPath base k := old ++ v]> (FileStore.files fs))
         (FileStore.faults fs)).
Proof.
  intros Hk Hf Hfile. split; [by apply hash_append_run|].
  unfold Store.append, bind. rewrite (file_get_present _ _ _ _ Hf Hfile).
  unfold FileStore.set. cbv zeta. by rewrite Hf.
Qed.

Lemma append_to_present_key_witness :
  Store.append HashStore.set HashStore.get "log" [x03] {["log" := [x01; x02]]}
  = (Returns tt, <["log" := [x01; x02] ++ [x03]]> {["log" := [x01; x02]]}).
Proof.
  refine (proj1 (append_to_present_key "/tmp/gloo" "log" [x01; x02] [x03]
    {["log" := [x01; x02]]}
    (FileStore.Filesystem {["/tmp/gloo/log" := [x01; x02]]} ∅) _ _ _)).
  - apply lookup_singleton_eq.
  - apply lookup_empty.
  - apply lookup_singleton_eq.
Defined.

(** X5. [append] does not create a key: on a key that is absent the
    call leaves by the exception of [get] in both backends ("Key not
    found" in the in-process store, the system error ENOENT in the
    filesystem store) and nothing is stored. *)
Theorem append_to_absent_key (base k : string) (v : list byte)
  (map_ : gmap string (list byte)) (fs : FileStore.filesystem) :
  map_ !! k = None ->
  FileStore.faults fs !! FileStore.realPath base k = None ->
  FileStore.files fs !! FileStore.realPath base k = None ->
  Store.append HashStore.set HashStore.get k v map_
    = (Throws (runtime_error ("Key not found: " +:+ k)), map_) /\
  Store.append (FileStore.set base) (FileStore.get base) k v fs
    = (Throws (system_error FileStore.ENOENT), fs).
Proof.
  intros Hk Hf Hfile. split; unfold Store.append, bind.
  - by rewrite (hash_get_absent _ _ Hk).
  - by rewrite (file_get_absent _ _ _ Hf Hfile).
Qed.

Lemma append_to_absent_key_witness :
  Store.append HashStore.set HashStore.get "log" [x03] ∅
  = (Throws (runtime_error "Key not found: log"), ∅).
Proof.
  refine (proj1 (append_to_absent_key "/tmp/gloo" "log" [x03] ∅
    (FileStore.Filesystem ∅ ∅) _ _ _)); apply lookup_empty.
Defined.

(** X6. Two [append] calls on a key of the in-process store, one after
    the other, leave what one [append] of the two values joined
    leaves. *)
Theorem hash_append_twice (k : string) (old a b : list byte)
  (map_ : gmap string (list byte)) :
  map_ !! k = Some old ->
  (do Store.append HashStore.set HashStore.get k a
   then Store.append HashStore.set HashStore.get k b) map_
  = Store.append HashStore.set HashStore.get k (a ++ b) map_.
Proof.
  intros Hk. unfold bind at 1. rewrite (hash_append_run k old a map_ Hk).
  rewrite (hash_append_run k (old ++ a) b) by apply lookup_insert_eq.
  rewrite (hash_append_run k old (a ++ b) map_ Hk).
  by rewrite insert_insert_eq, app_assoc.
Qed.

Lemma hash_append_twice_witness :
  (do Store.append HashStore.set HashStore.get "log" [x02]
   then Store.append HashStore.set HashStore.get "log" [x03])
    {["log" := [x01]]}
  = Store.append HashStore.set HashStore.get "log" ([x02] ++ [x03])
      {["log" := [x01]]}.
Proof.
  apply (hash_append_twice "log" [x01] [x02] [x03] {["log" := [x01]]}).
  apply lookup_singleton_eq.
Defined.

(** ** More on the counter [Store::add] and its encoding *)

Lemma Z_of_byte_range (b : byte) : 0 <= Z_of_byte b < 256.
Proof.
  unfold Z_of_byte. pose proof (Byte.to_N_bounded b) as H.
  apply N2Z.inj_le in H. change (Z.of_N 255) with 255 in H. lia.
Qed.

Lemma byte_of_Z_of_byte (b : byte) : byte_of_Z (Z_of_byte b) = b.
Proof.
  unfold byte_of_Z. rewrite Z.mod_small by apply Z_of_byte_range.
  unfold Z_of_byte. by rewrite N2Z.id, Byte.of_to_N.
Qed.

Lemma byte_of_Z_cons (b : byte) (x : Z) :
  byte_of_Z (Z_of_byte b + 256 * x) = b.
Proof.
  rewrite <- (byte_of_Z_of_byte b) at 2. unfold byte_of_Z.
  rewrite (Z.mul_comm 256 x), Z.mod_add by lia. reflexivity.
Qed.

Lemma of_bytes_le_range (l : list byte) :
  0 <= Int64.of_bytes_le l < 256 ^ Z.of_nat (length l).
Proof.
  induction l as [|b l IH].
  - cbn. lia.
  - cbn [Int64.of_bytes_le length]. rewrite Nat2Z.inj_succ, Z.pow_succ_r by lia.
    pose proof (Z_of_byte_range b). lia.
Qed.

Lemma bytes_le_of_bytes_le (l : list byte) :
  Int64.bytes_le (length l) (Int64.of_bytes_le l) = l.
Proof.
  induction l as [|b l IH]; [done|].
  cbn [length Int64.of_bytes_le Int64.bytes_le]. rewrite byte_of_Z_cons.
  f_equal. rewrite (Z.mul_comm 256), Z.div_add by lia.
  rewrite Z.div_small by apply Z_of_byte_range. exact IH.
Qed.

Lemma signed_range (u : Z) : Int64.in_range (Int64.signed u).
Proof.
  unfold Int64.in_range, Int64.signed, Int64.min_signed, Int64.max_signed,
    Int64.modulus.
  pose proof (Z.mod_pos_bound u (2 ^ 64)) as H.
  destruct (Z.ltb_spec (u mod 2 ^ 64) (2 ^ 63)); lia.
Qed.

Lemma signed_congr (u : Z) :
  Int64.signed u mod Int64.modulus = u mod Int64.modulus.
Proof.
  unfold Int64.signed, Int64.modulus.
  destruct (Z.ltb_spec (u mod 2 ^ 64) (2 ^ 63)).
  - by rewrite Z.mod_mod.
  - replace (u mod 2 ^ 64 - 2 ^ 64) with (u mod 2 ^ 64 + (-1) * 2 ^ 64) by lia.
    by rewrite Z.mod_add, Z.mod_mod.
Qed.

(** Writing back what was read gives the same 8 bytes. *)
Lemma encode_decode (host : endianness) (data : list byte) :
  length data = Int64.size ->
  Int64.encode host (Int64.decode host data) = data.
Proof.
  intros Hlen. unfold Int64.encode, Int64.decode.
  destruct host; rewrite signed_congr.
  - pose proof (of_bytes_le_range data) as Hr. rewrite Hlen in Hr.
    change (256 ^ Z.of_nat Int64.size) with Int64.modulus in Hr.
    rewrite Z.mod_small by done. rewrite <- Hlen. apply bytes_le_of_bytes_le.
  - pose proof (of_bytes_le_range (rev data)) as Hr.
    rewrite length_rev, Hlen in Hr.
    change (256 ^ Z.of_nat Int64.size) with Int64.modulus in Hr.
    rewrite Z.mod_small by done.
    rewrite <- Hlen, <- (length_rev data), bytes_le_of_bytes_le.
    apply rev_involutive.
Qed.

(** X7. [add] on a key that holds 8 bytes, in both backends: with [c]
    the integer these bytes are in the byte order of the host and
    [c + d] representable, [add(k, d)] returns [c + d] and leaves its
    8-byte image under [k]. *)
Theorem add_to_stored_counter (host : endianness) (base k : string) (d : Z)
  (data : list byte) (map_ : gmap string (list byte))
  (fs : FileStore.filesystem) :
  length data = Int64.size ->
  Int64.in_range (Int64.decode host data + d) ->
  map_ !! k = Some data ->
  FileStore.faults fs !! FileStore.realPath base k = None ->
  FileStore.files fs !! FileStore.realPath base k = Some data ->
  Store.add HashStore.set HashStore.get host k d map_
    = (Returns (Int64.decode host data + d),
       <[k := Int64.encode host (Int64.decode host data + d)]> map_) /\
  Store.add (FileStore.set base) (FileStore.get base) host k d fs
    = (Returns (Int64.decode host data + d),
       FileStore.Filesystem
         (<[FileStore.realPath base k
            := Int64.encode host (Int64.decode host data + d)]>
            (FileStore.files fs))
         (FileStore.faults fs)).
Proof.
  intros Hlen Hd Hm Hf Hfile.
  assert (Hdec : Int64.in_range (Int64.decode host data))
    by (destruct host; apply signed_range).
  rewrite <- (encode_decode host data Hlen) in Hm, Hfile. split.
  - by rewrite (add_stored_counter _ _ host k _ d map_ map_
                  (hash_get_present _ _ _ Hm) Hdec Hd).
  - rewrite (add_stored_counter _ _ host k _ d fs fs
               (file_get_present _ _ _ _ Hf Hfile) Hdec Hd).
    unfold bind, FileStore.set. cbv zeta. by rewrite Hf.
Qed.

Lemma add_to_stored_counter_witness :
  Store.add HashStore.set HashStore.get LittleEndian "n" 3
    {["n" := [x05; x00; x00; x00; x00; x00; x00; x00]]}
  = (Returns (Int64.decode LittleEndian [x05; x00; x00; x00; x00; x00; x00; x00] + 3),
     <["n" := Int64.encode LittleEndian
        (Int64.decode LittleEndian [x05; x00; x00; x00; x00; x00; x00; x00] + 3)]>
       {["n" := [x05; x00; x00; x00; x00; x00; x00; x00]]}).
Proof.
  refine (proj1 (add_to_stored_counter LittleEndian "/tmp/gloo" "n" 3
    [x05; x00; x00; x00; x00; x00; x00; x00]
    {["n" := [x05; x00; x00; x00; x00; x00; x00; x00]]}
    (FileStore.Filesystem
       {["/tmp/gloo/n" := [x05; x00; x00; x00; x00; x00; x00; x00]]} ∅)
    _ _ _ _ _)).
  - reflexivity.
  - vm_compute. split; discriminate.
  - apply lookup_singleton_eq.
  - apply lookup_empty.
  - apply lookup_singleton_eq.
Defined.

(** X8. Whenever [add] returns on the in-process store, the total it
    returns is a representable [int64_t], the key holds exactly the 8
    bytes of that total, and decoding them gives the total back; so a
    following [get] reads the counter that was returned. *)
Theorem hash_add_leaves_counter (host : endianness) (k : string) (d r : Z)
  (map_ map' : gmap string (list byte)) :
  Store.add HashStore.set HashStore.get host k d map_ = (Returns r, map') ->
  Int64.in_range r /\
  map' = <[k := Int64.encode host r]> map_ /\
  HashStore.get k map' = (Returns (Int64.encode host r), map') /\
  length (Int64.encode host r) = 8%nat /\
  Int64.decode host (Int64.encode host r) = r.
Proof.
  unfold Store.add, bind. destruct (HashStore.get k map_) as [[data|e| |] m1] eqn:Hg;
    try discriminate.
  pose proof (hash_get_frame k map_) as Hfr. rewrite Hg in Hfr. cbn in Hfr. subst m1.
  cbn. intros H. injection H as <- <-.
  assert (Hr : Int64.in_range (Int64.wrap
     ((if (length data =? Int64.size)%nat then Int64.decode host data else 0) + d)))
    by apply signed_range.
  repeat split; try apply Hr.
  - apply hash_get_present, lookup_insert_eq.
  - apply length_encode.
  - rewrite decode_encode. by apply signed_in_range.
Qed.

Lemma hash_add_leaves_counter_witness :
  HashStore.get "n" (<["n" := Int64.encode BigEndian 7]> {["n" := []]})
  = (Returns (Int64.encode BigEndian 7),
     <["n" := Int64.encode BigEndian 7]> {["n" := []]}).
Proof.
  refine (proj1 (proj2 (proj2 (hash_add_leaves_counter BigEndian "n" 7 7
    {["n" := []]} (<["n" := Int64.encode BigEndian 7]> {["n" := []]}) _)))).
  reflexivity.
Defined.

(** X9. [add(k, 0)] reads a counter without changing it: on a key of
    the in-process store that holds 8 bytes it returns the integer they
    encode and the map is, byte for byte, the map before the call. *)
Theorem hash_add_zero_reads (host : endianness) (k : string)
  (data : list byte) (map_ : gmap string (list byte)) :
  map_ !! k = Some data ->
  length data = Int64.size ->
  Store.add HashStore.set HashStore.get host k 0 map_
  = (Returns (Int64.decode host data), map_).
Proof.
  intros Hk Hlen. unfold Store.add, bind.
  rewrite (hash_get_present _ _ _ Hk).
  apply Nat.eqb_eq in Hlen as Hlen'. rewrite Hlen'. rewrite Z.add_0_r.
  assert (Hdec : Int64.in_range (Int64.decode host data))
    by (destruct host; apply signed_range).
  unfold Int64.wrap. rewrite (signed_in_range _ Hdec). cbn.
  rewrite (encode_decode host data Hlen). by rewrite insert_id.
Qed.

Lemma hash_add_zero_reads_witness :
  Store.add HashStore.set HashStore.get BigEndian "n" 0
    {["n" := [xff; xff; xff; xff; xff; xff; xff; xfe]]}
  = (Returns (Int64.decode BigEndian [xff; xff; xff; xff; xff; xff; xff; xfe]),
     {["n" := [xff; xff; xff; xff; xff; xff; xff; xfe]]}).
Proof.
  apply (hash_add_zero_reads BigEndian "n"
    [xff; xff; xff; xff; xff; xff; xff; xfe]).
  - apply lookup_singleton_eq.
  - reflexivity.
Defined.

(** ** More on [HashStore::wait] *)

Lemma allFound_spec (map_ : gmap string (list byte)) (keys : list string) :
  HashStore.allFound map_ keys = true <->
  Forall (fun k => is_Some (map_ !! k)) keys.
Proof.
  induction keys as [|k keys IH]; cbn.
  - split; [constructor | done].
  - destruct (map_ !! k) as [v|] eqn:Hk.
    + rewrite IH. split.
      * intros H. constructor; [by exists v | done].
      * intros H. by apply Forall_cons in H as [_ H].
    + split; [done|]. intros H. apply Forall_cons in H as [[v Hv] _]. congruence.
Qed.

Lemma hash_wait_returns_allFound (kNoTimeout timeout : Z) (keys : list string)
  (env : list HashStore.wakeup) (map_ map' : gmap string (list byte)) :
  HashStore.wait kNoTimeout keys timeout env map_ = (Returns tt, map') ->
  HashStore.allFound map' keys = true.
Proof.
  unfold HashStore.wait. revert map_.
  induction env as [|w env IH]; intros map_; cbn [HashStore.wait_loop].
  - destruct (HashStore.allFound map_ keys) eqn:E; [|discriminate].
    intros H. by injection H as <-.
  - destruct (HashStore.allFound map_ keys) eqn:E.
    + intros H. by injection H as <-.
    + destruct (negb _); [destruct (HashStore.deadline_passed w)|];
        try discriminate; apply IH.
Qed.

(** X10. When every requested key is already in the map (in
    particular for an empty list of keys), the in-process store's [wait]
    returns at once: for every timeout, zero and the sentinel included,
    and without sleeping on the condition variable. *)
Theorem hash_wait_keys_present (kNoTimeout timeout : Z) (keys : list string)
  (env : list HashStore.wakeup) (map_ : gmap string (list byte)) :
  Forall (fun k => is_Some (map_ !! k)) keys ->
  HashStore.wait kNoTimeout keys timeout env map_ = (Returns tt, map_).
Proof.
  intros H. apply allFound_spec in H. unfold HashStore.wait.
  destruct env; cbn [HashStore.wait_loop]; by rewrite H.
Qed.

Lemma hash_wait_keys_present_witness :
  HashStore.wait 0 ["rank0"] 0 [HashStore.Wakeup [] true] {["rank0" := [x01]]}
  = (Returns tt, {["rank0" := [x01]]}).
Proof.
  apply (hash_wait_keys_present 0 0 ["rank0"] [HashStore.Wakeup [] true]).
  repeat constructor. by exists [x01].
Defined.

(** X11. [wait] is a readiness barrier: when the in-process store's
    [wait(keys, t)] returns, a [get] of each of the keys on the map it
    leaves returns a value. *)
Theorem hash_wait_then_get (kNoTimeout timeout : Z) (keys : list string)
  (env : list HashStore.wakeup) (map_ map' : gmap string (list byte))
  (k : string) :
  HashStore.wait kNoTimeout keys timeout env map_ = (Returns tt, map') ->
  k ∈ keys ->
  exists data, HashStore.get k map' = (Returns data, map').
Proof.
  intros Hw Hk. apply hash_wait_returns_allFound in Hw.
  apply allFound_spec in Hw. rewrite Forall_forall in Hw.
  destruct (Hw k Hk) as [data Hd]. exists data. by apply hash_get_present.
Qed.

Lemma hash_wait_then_get_witness :
  exists data,
    HashStore.get "rank1" {["rank1" := [x07]]}
    = (Returns data, {["rank1" := [x07]]}).
Proof.
  apply (hash_wait_then_get 0 5000 ["rank1"]
    [HashStore.Wakeup [("rank1", [x07])] false] ∅ {["rank1" := [x07]]} "rank1").
  - reflexivity.
  - apply list_elem_of_singleton. reflexivity.
Defined.

(** X12. No wake-up is lost: if the writes of the other threads during
    the observed sleeps bring every requested key into the map, and the
    wait is without deadline (the sentinel) or its deadline passes in
    none of these sleeps, then the in-process store's [wait] returns. *)
Theorem hash_wait_returns_once_published (kNoTimeout timeout : Z)
  (keys : list string) (env : list HashStore.wakeup)
  (map_ : gmap string (list byte)) :
  timeout = kNoTimeout \/
    Forall (fun w => HashStore.deadline_passed w = false) env ->
  HashStore.allFound
    (HashStore.store_all (concat (HashStore.stored <$> env)) map_) keys = true ->
  (HashStore.wait kNoTimeout keys timeout env map_).1 = Returns tt.
Proof.
  unfold HashStore.wait. revert map_.
  induction env as [|w env IH]; intros map_ Ht Hpub; cbn [HashStore.wait_loop].
  - cbn in Hpub. by rewrite Hpub.
  - destruct (HashStore.allFound map_ keys) eqn:E; [done|].
    cbn [fmap list_fmap concat] in Hpub. rewrite store_all_app in Hpub.
    assert (Ht' : timeout = kNoTimeout \/
              Forall (fun w => HashStore.deadline_passed w = false) env).
    { destruct Ht as [?|Ht]; [by left | right].
      by apply Forall_cons in Ht as [_ ?]. }
    destruct Ht as [->|Ht].
    + rewrite Z.eqb_refl. cbn [negb]. by apply IH.
    + apply Forall_cons in Ht as [Hw _]. rewrite Hw.
      destruct (negb _); by apply IH.
Qed.

Lemma hash_wait_returns_once_published_witness :
  (HashStore.wait 0 ["rank0"; "rank1"] 0
     [HashStore.Wakeup [("rank0", [x01])] true;
      HashStore.Wakeup [("rank1", [x02])] true] ∅).1
  = Returns tt.
Proof.
  apply (hash_wait_returns_once_published 0 0 ["rank0"; "rank1"]
    [HashStore.Wakeup [("rank0", [x01])] true;
     HashStore.Wakeup [("rank1", [x02])] true] ∅).
  - left. reflexivity.
  - reflexivity.
Defined.

(** X14. A wait with a deadline does not look at the map again once the
    deadline has passed: if a key was missing before the sleep and the
    sleep ends past the deadline, [wait] throws "Wait timeout" even when
    the other threads stored every missing key during that sleep. *)
Theorem hash_wait_timeout_without_recheck (kNoTimeout timeout : Z)
  (keys : list string) (w : HashStore.wakeup) (env : list HashStore.wakeup)
  (map_ : gmap string (list byte)) :
  timeout <> kNoTimeout ->
  HashStore.allFound map_ keys = false ->
  HashStore.deadline_passed w = true ->
  HashStore.wait kNoTimeout keys timeout (w :: env) map_
  = (Throws (runtime_error "Wait timeout"),
     HashStore.store_all (HashStore.stored w) map_).
Proof.
  intros Ht Hk Hw. unfold HashStore.wait. cbn [HashStore.wait_loop].
  rewrite Hk, Hw. apply Z.eqb_neq in Ht. by rewrite Ht.
Qed.

Lemma hash_wait_timeout_without_recheck_witness :
  HashStore.wait 0 ["rank1"] 5000
    [HashStore.Wakeup [("rank1", [x07])] true] ∅
  = (Throws (runtime_error "Wait timeout"), {["rank1" := [x07]]}) /\
  HashStore.allFound {["rank1" := [x07]]} ["rank1"] = true.
Proof.
  split; [|reflexivity].
  apply (hash_wait_timeout_without_recheck 0 5000 ["rank1"]
    (HashStore.Wakeup [("rank1", [x07])] true) [] ∅).
  - discriminate.
  - reflexivity.
  - reflexivity.
Defined.

(** ** More on the primitive [set] and [get] *)

Lemma file_set_returns (base k : string) (v : list byte)
  (fs fs' : FileStore.filesystem) :
  FileStore.set base k v fs = (Returns tt, fs') ->
  FileStore.faults fs !! FileStore.realPath base k = None /\
  fs' = FileStore.Filesystem
          (<[FileStore.realPath base k := v]> (FileStore.files fs))
          (FileStore.faults fs).
Proof.
  unfold FileStore.set. cbv zeta.
  destruct (FileStore.faults fs !! FileStore.realPath base k); [discriminate|].
  intros H. by injection H as <-.
Qed.

(** X15. Publish-then-read in the filesystem store: once [set(k, v)]
    has returned, [get(k)] returns exactly [v], of whatever length and
    whatever the file held before, and [wait({k}, t)] returns at its
    first look for every timeout. *)
Theorem file_store_set_then_get (base k : string) (v : list byte)
  (timeout : Z) (env : list FileStore.poll) (fs fs' : FileStore.filesystem) :
  FileStore.set base k v fs = (Returns tt, fs') ->
  FileStore.get base k fs' = (Returns v, fs') /\
  FileStore.wait base [k] timeout env fs' = (Returns tt, fs').
Proof.
  intros Hset. apply file_set_returns in Hset as [Hf ->].
  assert (Hfile : FileStore.files
            (FileStore.Filesystem
               (<[FileStore.realPath base k := v]> (FileStore.files fs))
               (FileStore.faults fs)) !! FileStore.realPath base k = Some v)
    by apply lookup_insert_eq.
  split; [by apply file_get_present|].
  unfold FileStore.wait.
  assert (Hr : FileStore.ready base
            (FileStore.Filesystem
               (<[FileStore.realPath base k := v]> (FileStore.files fs))
               (FileStore.faults fs)) [k] = FileStore.Ready).
  { cbn [FileStore.ready]. unfold FileStore.stat.
    cbn [FileStore.faults]. by rewrite Hf, Hfile. }
  destruct env; cbn [FileStore.wait_loop]; by rewrite Hr.
Qed.

Lemma file_store_set_then_get_witness :
  FileStore.get "/tmp/gloo" "rank0"
    (FileStore.Filesystem {["/tmp/gloo/rank0" := [x01; x02]]} ∅)
  = (Returns [x01; x02],
     FileStore.Filesystem {["/tmp/gloo/rank0" := [x01; x02]]} ∅).
Proof.
  refine (proj1 (file_store_set_then_get "/tmp/gloo" "rank0" [x01; x02] 0 []
    (FileStore.Filesystem {["/tmp/gloo/rank0" := [x09]]} ∅)
    (FileStore.Filesystem {["/tmp/gloo/rank0" := [x01; x02]]} ∅) _)).
  reflexivity.
Defined.

(** X16. Writers of different keys do not disturb each other in the
    in-process store: a [set] of one key leaves what [get] of any other
    key returns or throws as it was. *)
Theorem set_leaves_other_keys (k1 k2 : string) (v : list byte)
  (map_ : gmap string (list byte)) :
  k1 <> k2 ->
  (HashStore.get k2 (HashStore.set k1 v map_).2).1 = (HashStore.get k2 map_).1.
Proof.
  intros Hne. unfold HashStore.set, HashStore.get. cbn.
  rewrite lookup_insert_ne by done. by destruct (map_ !! k2).
Qed.

Lemma set_leaves_other_keys_witness :
  (HashStore.get "rank1" (HashStore.set "rank0" [x01] {["rank1" := [x02]]}).2).1
  = (HashStore.get "rank1" {["rank1" := [x02]]}).1.
Proof.
  apply (set_leaves_other_keys "rank0" "rank1" [x01] {["rank1" := [x02]]}).
  discriminate.
Defined.

(** X17. Last writer wins: in both backends two [set] calls on one key,
    one after the other, end in the outcome and the state of the second
    call alone. *)
Theorem set_twice_is_last_set (base k : string) (v1 v2 : list byte)
  (map_ : gmap string (list byte)) (fs : FileStore.filesystem) :
  (do HashStore.set k v1 then HashStore.set k v2) map_ = HashStore.set k v2 map_ /\
  (do FileStore.set base k v1 then FileStore.set base k v2) fs
  = FileStore.set base k v2 fs.
Proof.
  split.
  - unfold bind, HashStore.set. by rewrite insert_insert_eq.
  - unfold bind, FileStore.set. cbv zeta.
    destruct (FileStore.faults fs !! FileStore.realPath base k) eqn:Hf; [done|].
    cbn. by rewrite Hf, insert_insert_eq.
Qed.

(** ** More on [FileStore::wait] *)

Lemma file_ready_spec (base : string) (fs : FileStore.filesystem)
  (keys : list string) :
  FileStore.ready base fs keys = FileStore.Ready <->
  Forall (fun k => FileStore.stat fs (FileStore.realPath base k) = None) keys.
Proof.
  induction keys as [|k keys IH]; cbn [FileStore.ready].
  - split; [constructor | done].
  - destruct (FileStore.stat fs (FileStore.realPath base k)) as [e|] eqn:Hs.
    + split.
      * by destruct (Z.eqb e FileStore.ENOENT).
      * intros H. apply Forall_cons in H as [H _]. congruence.
    + rewrite IH. split.
      * intros H. by constructor.
      * intros H. by apply Forall_cons in H as [_ H].
Qed.

Lemma file_stat_none (fs : FileStore.filesystem) (path : string) :
  FileStore.stat fs path = None <->
  FileStore.faults fs !! path = None /\ is_Some (FileStore.files fs !! path).
Proof.
  unfold FileStore.stat. destruct (FileStore.faults fs !! path) as [e|].
  - split; [done | by intros [? _]].
  - destruct (FileStore.files fs !! path) as [d|].
    + split; [by split; [|exists d] | done].
    + split; [done | by intros [_ [d ?]]].
Qed.

(** X18. A [stat] failure other than "no such file" ends the filesystem
    store's [wait] at once: if the keys before [k] in the list are
    there and [stat] on the path of [k] fails with another errno, the
    call throws the system error with that errno, for every timeout and
    before any clock reading or sleep. *)
Theorem file_wait_stat_failure (base k : string) (before after : list string)
  (errno timeout : Z) (env : list FileStore.poll) (fs : FileStore.filesystem) :
  Forall (fun k' => FileStore.stat fs (FileStore.realPath base k') = None) before ->
  FileStore.faults fs !! FileStore.realPath base k = Some errno ->
  errno <> FileStore.ENOENT ->
  FileStore.wait base (before ++ k :: after) timeout env fs
  = (Throws (system_error errno), fs).
Proof.
  intros Hb Hf Hne.
  assert (Hr : FileStore.ready base fs (before ++ k :: after)
               = FileStore.StatFailed errno).
  { induction Hb as [|k' before Hk' Hb IH]; cbn [app FileStore.ready].
    - unfold FileStore.stat. rewrite Hf.
      apply Z.eqb_neq in Hne. by rewrite Hne.
    - by rewrite Hk'. }
  unfold FileStore.wait. destruct env; cbn [FileStore.wait_loop]; by rewrite Hr.
Qed.

Lemma file_wait_stat_failure_witness :
  FileStore.wait "/tmp/gloo" ["rank0"; "rank1"] 5000 []
    (FileStore.Filesystem {["/tmp/gloo/rank0" := [x01]]}
       {["/tmp/gloo/rank1" := 13]})
  = (Throws (system_error 13),
     FileStore.Filesystem {["/tmp/gloo/rank0" := [x01]]}
       {["/tmp/gloo/rank1" := 13]}).
Proof.
  apply (file_wait_stat_failure "/tmp/gloo" "rank1" ["rank0"] [] 13 5000 []).
  - repeat constructor.
  - reflexivity.
  - discriminate.
Defined.

(** X19. The filesystem store's [wait] does not time out early: as long
    as every clock reading it takes is at most the timeout (the
    comparison is strict), the call does not throw its timeout error. *)
Theorem file_wait_no_early_timeout (base : string) (keys : list string)
  (timeout : Z) (env : list FileStore.poll) (fs : FileStore.filesystem) :
  Forall (fun p => FileStore.elapsed p <= timeout) env ->
  (FileStore.wait base keys timeout env fs).1
  <> Throws (runtime_error "Timeout waiting for keys").
Proof.
  unfold FileStore.wait. intros He. revert fs.
  induction He as [|p env Hp He IH]; intros fs; cbn [FileStore.wait_loop].
  - by destruct (FileStore.ready base fs keys).
  - destruct (FileStore.ready base fs keys); [done| |done].
    apply Z.ltb_ge in Hp. rewrite Hp. apply IH.
Qed.

Lemma file_wait_no_early_timeout_witness :
  (FileStore.wait "/tmp/gloo" ["rank1"] 10
     [FileStore.Poll 0 []; FileStore.Poll 10 []] (FileStore.Filesystem ∅ ∅)).1
  <> Throws (runtime_error "Timeout waiting for keys").
Proof.
  apply (file_wait_no_early_timeout "/tmp/gloo" ["rank1"] 10
    [FileStore.Poll 0 []; FileStore.Poll 10 []] (FileStore.Filesystem ∅ ∅)).
  repeat constructor; cbn; lia.
Defined.

Lemma file_write_all_app (xs ys : list (string * list byte))
  (fs : FileStore.filesystem) :
  FileStore.write_all (xs ++ ys) fs
  = FileStore.write_all ys (FileStore.write_all xs fs).
Proof. unfold FileStore.write_all. cbn. by rewrite foldl_app. Qed.

Lemma file_ready_no_faults (base : string) (fs : FileStore.filesystem)
  (keys : list string) :
  Forall (fun k => FileStore.faults fs !! FileStore.realPath base k = None) keys ->
  FileStore.ready base fs keys = FileStore.Ready \/
  FileStore.ready base fs keys = FileStore.NotReady.
Proof.
  intros H. induction H as [|k keys Hk H IH]; cbn [FileStore.ready]; [by left|].
  unfold FileStore.stat. rewrite Hk.
  destruct (FileStore.files fs !! FileStore.realPath base k); [done | by right].
Qed.

(** X21. Polling finds what was published: if [stat] has no failure of
    its own on the paths of the keys, every clock reading is within the
    timeout, and the files written by the other processes during the
    observed sleeps make every key's file exist, then the filesystem
    store's [wait] returns. *)
Theorem file_wait_returns_once_published (base : string) (keys : list string)
  (timeout : Z) (env : list FileStore.poll) (fs : FileStore.filesystem) :
  Forall (fun k => FileStore.faults fs !! FileStore.realPath base k = None) keys ->
  Forall (fun p => FileStore.elapsed p <= timeout) env ->
  Forall (fun k => is_Some
            (FileStore.files
               (FileStore.write_all (concat (FileStore.written <$> env)) fs)
             !! FileStore.realPath base k)) keys ->
  (FileStore.wait base keys timeout env fs).1 = Returns tt.
Proof.
  unfold FileStore.wait. intros Hf He. revert fs Hf.
  induction He as [|p env Hp He IH]; intros fs Hf Hpub;
    cbn [FileStore.wait_loop].
  - cbn [fmap list_fmap concat] in Hpub. rewrite file_write_all_nil in Hpub.
    assert (Hr : FileStore.ready base fs keys = FileStore.Ready).
    { apply file_ready_spec. rewrite Forall_forall in Hf, Hpub.
      apply Forall_forall. intros k Hk. apply file_stat_none. eauto. }
    by rewrite Hr.
  - destruct (file_ready_no_faults base fs keys Hf) as [Hr|Hr]; rewrite Hr;
      [done|].
    apply Z.ltb_ge in Hp. rewrite Hp.
    cbn [fmap list_fmap concat] in Hpub. rewrite file_write_all_app in Hpub.
    by apply IH.
Qed.

Lemma file_wait_returns_once_published_witness :
  (FileStore.wait "/tmp/gloo" ["rank0"; "rank1"] 5000
     [FileStore.Poll 0 [("/tmp/gloo/rank1", [x02])]]
     (FileStore.Filesystem {["/tmp/gloo/rank0" := [x01]]} ∅)).1
  = Returns tt.
Proof.
  apply (file_wait_returns_once_published "/tmp/gloo" ["rank0"; "rank1"] 5000
    [FileStore.Poll 0 [("/tmp/gloo/rank1", [x02])]]
    (FileStore.Filesystem {["/tmp/gloo/rank0" := [x01]]} ∅)).
  - repeat constructor.
  - repeat constructor. cbn. lia.
  - repeat constructor; [by exists [x01] | by exists [x02]].
Defined.

(** ** [multi_set] is not atomic *)

Lemma file_set_each_until_fault (base k : string) (v : list byte)
  (errno : Z) (rest : list (string * list byte)) (ks : list string)
  (vs : list (list byte)) (fs : FileStore.filesystem) :
  Forall (fun k' => FileStore.faults fs !! FileStore.realPath base k' = None) ks ->
  FileStore.faults fs !! FileStore.realPath base k = Some errno ->
  length ks = length vs ->
  set_each (FileStore.set base) (zip ks vs ++ (k, v) :: rest) fs
  = (Throws (system_error errno),
     FileStore.write_all
       (prod_map (FileStore.realPath base) id <$> zip ks vs) fs).
Proof.
  intros Hks. revert vs fs Hks.
  induction ks as [|k1 ks IH]; intros [|v1 vs] fs Hks Hk Hlen;
    try discriminate Hlen.
  - cbn [zip zip_with app set_each fst snd]. unfold bind, FileStore.set.
    cbv zeta. rewrite Hk. by destruct fs.
  - apply Forall_cons in Hks as [Hk1 Hks]. injection Hlen as Hlen.
    cbn [zip zip_with app set_each fst snd]. unfold bind.
    unfold FileStore.set at 1. cbv zeta. rewrite Hk1.
    rewrite IH by done. reflexivity.
Qed.

(** X22. [multi_set] is not atomic. In the filesystem store, when the
    file of one key of the batch cannot be opened, the call throws the
    system error of that [open]; the keys before it in the batch have
    been written and stay written, the keys after it are not
    touched. *)
Theorem file_multi_set_partial (base k : string) (v : list byte) (errno : Z)
  (ks1 ks2 : list string) (vs1 vs2 : list (list byte))
  (fs : FileStore.filesystem) :
  Forall (fun k' => FileStore.faults fs !! FileStore.realPath base k' = None) ks1 ->
  FileStore.faults fs !! FileStore.realPath base k = Some errno ->
  length ks1 = length vs1 ->
  (length ks2 <= length vs2)%nat ->
  Store.multi_set (FileStore.set base) (ks1 ++ k :: ks2) (vs1 ++ v :: vs2) fs
  = (Throws (system_error errno),
     FileStore.write_all
       (prod_map (FileStore.realPath base) id <$> zip ks1 vs1) fs).
Proof.
  intros Hks Hk Hlen1 Hlen2. unfold Store.multi_set.
  rewrite multi_set_loop_in_range
    by (rewrite !length_app; cbn [length]; lia).
  rewrite drop_0, zip_with_app by done.
  by apply file_set_each_until_fault.
Qed.

Lemma file_multi_set_partial_witness :
  Store.multi_set (FileStore.set "/tmp/gloo") ["a"; "b"; "c"]
    [[x01]; [x02]; [x03]]
    (FileStore.Filesystem ∅ {["/tmp/gloo/b" := 13]})
  = (Throws (system_error 13),
     FileStore.Filesystem {["/tmp/gloo/a" := [x01]]} {["/tmp/gloo/b" := 13]}).
Proof.
  refine (file_multi_set_partial "/tmp/gloo" "b" [x02] 13 ["a"] ["c"]
    [[x01]] [[x03]] (FileStore.Filesystem ∅ {["/tmp/gloo/b" := 13]}) _ _ _ _).
  - repeat constructor.
  - reflexivity.
  - reflexivity.
  - cbn. lia.
Defined.

(** ** More on the prefix decorator *)

Lemma string_app_assoc (a b c : string) : (a +:+ b) +:+ c = a +:+ b +:+ c.
Proof.
  induction a as [|x a IH]; [done|].
  rewrite !string_app_cons. by rewrite IH.
Qed.

(** X23. Publish, wait and read through one decorator over the
    in-process store: after [set(k, v)] through the decorator, [wait]
    for [k] through it returns at once for every timeout and [get(k)]
    through it returns [v]; the value sits under the physical key
    [prefix + k]. *)
Theorem prefix_set_wait_get (p k : string) (v : list byte)
  (kNoTimeout timeout : Z) (host : endianness) (env : list HashStore.wakeup)
  (map_ : gmap string (list byte)) :
  PrefixStore.set p (HashStore.vtable kNoTimeout host) k v map_
    = (Returns tt, <[p +:+ k := v]> map_) /\
  PrefixStore.wait p (HashStore.vtable kNoTimeout host) [k] timeout env
    (<[p +:+ k := v]> map_)
    = (Returns tt, <[p +:+ k := v]> map_) /\
  PrefixStore.get p (HashStore.vtable kNoTimeout host) k (<[p +:+ k := v]> map_)
    = (Returns v, <[p +:+ k := v]> map_).
Proof.
  split; [reflexivity|]. split.
  - unfold PrefixStore.wait, PrefixStore.prefixed. cbn [map IStore.wait HashStore.vtable].
    unfold HashStore.wait.
    destruct env; cbn [HashStore.wait_loop HashStore.allFound];
      by rewrite lookup_insert_eq.
  - unfold PrefixStore.get. cbn [IStore.get HashStore.vtable].
    apply hash_get_present, lookup_insert_eq.
Qed.

(** X24. Decorators nest by joining their prefixes: a decorator with
    prefix [p1] over a decorator with prefix [p2] over a store sets,
    gets and waits for the same physical keys as one decorator with
    prefix [p2 + p1] over that store. *)
Theorem prefix_of_prefix {St Env : Type} (store_ : IStore.t St Env)
  (host : endianness) (p1 p2 k : string) (keys : list string)
  (v : list byte) (timeout : Z) (env : Env) (s : St) :
  PrefixStore.set p1 (PrefixStore.vtable p2 store_ host) k v s
    = PrefixStore.set (p2 +:+ p1) store_ k v s /\
  PrefixStore.get p1 (PrefixStore.vtable p2 store_ host) k s
    = PrefixStore.get (p2 +:+ p1) store_ k s /\
  PrefixStore.wait p1 (PrefixStore.vtable p2 store_ host) keys timeout env s
    = PrefixStore.wait (p2 +:+ p1) store_ keys timeout env s.
Proof.
  unfold PrefixStore.set, PrefixStore.get, PrefixStore.wait.
  cbn [IStore.set IStore.get IStore.wait PrefixStore.vtable].
  unfold PrefixStore.set, PrefixStore.get, PrefixStore.wait.
  rewrite string_app_assoc. split; [done|]. split; [done|].
  f_equal. unfold PrefixStore.prefixed. rewrite map_map.
  apply map_ext. intros a. by rewrite string_app_assoc.
Qed.

Lemma prefix_multi_get_loop_fallback {St Env : Type} (store_ : IStore.t St Env)
  (p : string) (keys : list string) (result : list (list byte)) (s : St) :
  Store.multi_get_loop (PrefixStore.get p store_) keys result s
  = Store.multi_get_loop (IStore.get store_) (PrefixStore.prefixed p keys) result s.
Proof.
  revert result s; induction keys as [|k keys IH]; intros result s; [done|].
  cbn [PrefixStore.prefixed map Store.multi_get_loop]. unfold bind.
  unfold PrefixStore.get at 1.
  destruct (IStore.get store_ (p +:+ k) s) as [[data|e| |] s']; [|done..].
  apply IH.
Qed.

(** X25. Over a backing store without v2 support the decorator's
    [multi_get], [append] and [add] are the generic operations of the
    backing store on the prefixed keys: the prefix is applied once to
    each key and nothing else changes. *)
Theorem prefix_fallback_is_generic {St Env : Type} (store_ : IStore.t St Env)
  (host : endianness) (p k : string) (keys : list string) (v : list byte)
  (d : Z) (s : St) :
  IStore.has_v2_support store_ = false ->
  PrefixStore.multi_get p store_ keys s
    = Store.multi_get (IStore.get store_) (PrefixStore.prefixed p keys) s /\
  PrefixStore.append p store_ k v s
    = Store.append (IStore.set store_) (IStore.get store_) (p +:+ k) v s /\
  PrefixStore.add p store_ host k d s
    = Store.add (IStore.set store_) (IStore.get store_) host (p +:+ k) d s.
Proof.
  intros Hv2. unfold PrefixStore.multi_get, PrefixStore.append, PrefixStore.add.
  rewrite Hv2. cbn [negb]. split; [|split; reflexivity].
  unfold Store.multi_get. apply prefix_multi_get_loop_fallback.
Qed.

Lemma prefix_fallback_is_generic_witness :
  PrefixStore.add "ctx/" (HashStore.vtable 0 LittleEndian) LittleEndian "n" 2
    {["ctx/n" := []]}
  = Store.add HashStore.set HashStore.get LittleEndian ("ctx/" +:+ "n") 2
      {["ctx/n" := []]}.
Proof.
  refine (proj2 (proj2 (prefix_fallback_is_generic
    (HashStore.vtable 0 LittleEndian) LittleEndian "ctx/" "n" ["n"] [x01] 2
    {["ctx/n" := []]} _))).
  reflexivity.
Defined.

(** * Properties of the topology *)

Lemma rotations_checked (n : Z) (ps : list Z) :
  existsb (fun rotation => (rotation <? 0) || (n <=? rotation)) ps = false <->
  Forall (fun rot => 0 <= rot < n) ps.
Proof.
  induction ps as [|p ps IH]; cbn [existsb].
  - split; [constructor | done].
  - rewrite orb_false_iff, orb_false_iff, IH, Z.ltb_ge, Z.leb_gt, Forall_cons.
    tauto.
Qed.

Lemma init_returns_valid (c : Topology.TopologyConfig) (r : Z) :
  Topology.initializeConnections c = Returns r ->
  (Topology.type c = "ring" \/ Topology.type c = "hierarchical") /\
  0 < Topology.num_nodes c /\
  Topology.permutations c <> [] /\
  Forall (fun rot => 0 <= rot < Topology.num_nodes c) (Topology.permutations c) /\
  r = (if String.eqb (Topology.type c) "ring"
       then Z.of_nat (length (Topology.permutations c)) else 2).
Proof.
  unfold Topology.initializeConnections.
  destruct (String.eqb_spec (Topology.type c) "ring") as [Hr|Hr];
    destruct (String.eqb_spec (Topology.type c) "hierarchical") as [Hh|Hh];
    cbn [negb andb]; try discriminate;
    (destruct (Z.leb_spec (Topology.num_nodes c) 0) as [Hn|Hn]; [discriminate|]);
    (destruct (Topology.permutations c) as [|p ps] eqn:Hp; [discriminate|]);
    cbn [length Nat.eqb];
    (destruct (existsb _ (p :: ps)) eqn:Hex; [discriminate|]);
    apply rotations_checked in Hex;
    intros H; injection H as <-; repeat split; auto; done.
Qed.

Lemma init_accepts_valid (c : Topology.TopologyConfig) :
  (Topology.type c = "ring" \/ Topology.type c = "hierarchical") ->
  0 < Topology.num_nodes c ->
  Topology.permutations c <> [] ->
  Forall (fun rot => 0 <= rot < Topology.num_nodes c) (Topology.permutations c) ->
  Topology.initializeConnections c
  = Returns (if String.eqb (Topology.type c) "ring"
             then Z.of_nat (length (Topology.permutations c)) else 2).
Proof.
  intros Ht Hn Hp HF. unfold Topology.initializeConnections.
  apply rotations_checked in HF. rewrite HF.
  destruct (Z.leb_spec (Topology.num_nodes c) 0) as [?|_]; [lia|].
  destruct (Topology.permutations c) as [|p ps]; [done|]. cbn [length Nat.eqb].
  destruct Ht as [-> | ->]; reflexivity.
Qed.

(** X26. What the constructor of [Topology] accepts: it returns
    without an exception exactly for the configurations whose type is
    "ring" or "hierarchical", whose number of nodes is positive and
    whose list of rotations is not empty and holds only values from 0
    to num_nodes-1 (for a hierarchical topology as well, which does not
    use them); the number of rings is then the number of rotations for
    a ring and 2 for a hierarchical topology. *)
Theorem topology_constructor_accepts (c : Topology.TopologyConfig) (r : Z) :
  Topology.initializeConnections c = Returns r <->
  ((Topology.type c = "ring" \/ Topology.type c = "hierarchical") /\
   0 < Topology.num_nodes c /\
   Topology.permutations c <> [] /\
   Forall (fun rot => 0 <= rot < Topology.num_nodes c) (Topology.permutations c) /\
   r = (if String.eqb (Topology.type c) "ring"
        then Z.of_nat (length (Topology.permutations c)) else 2)).
Proof.
  split; [apply init_returns_valid|].
  intros (Ht & Hn & Hp & HF & ->). by apply init_accepts_valid.
Qed.

Lemma find_offset_lookup (l : list Z) (j : nat) (x : Z) :
  NoDup l -> l !! j = Some x -> Topology.find_offset l x = j.
Proof.
  intros Hnd. revert j. induction Hnd as [|y l Hy Hnd IH]; intros j Hj; [done|].
  cbn [Topology.find_offset]. destruct j as [|j]; cbn in Hj.
  - injection Hj as ->. by rewrite Z.eqb_refl.
  - destruct (Z.eqb_spec y x) as [->|Hne].
    + exfalso. apply Hy. by apply list_elem_of_lookup_2 in Hj.
    + f_equal. by apply IH.
Qed.

(** The identity permutation rotated by [r]: position [j] holds
    [(j + r) mod n]. *)
Lemma rotate_identity (n r : Z) :
  0 <= r < n ->
  exists l,
    Topology.rotate (seqZ 0 n) r = Some l /\
    NoDup l /\
    forall j, 0 <= j < n -> l !! Z.to_nat j = Some ((j + r) mod n).
Proof.
  intros Hr. unfold Topology.rotate. rewrite length_seqZ, Z2Nat.id by lia.
  destruct (Z.leb_spec 0 r) as [_|?]; [|lia].
  destruct (Z.leb_spec r n) as [_|?]; [|lia]. cbn [andb].
  eexists. split; [reflexivity|]. split.
  - rewrite (comm app). rewrite take_drop. apply NoDup_seqZ.
  - intros j Hj.
    assert (Hlen : length (drop (Z.to_nat r) (seqZ 0 n)) = Z.to_nat (n - r))
      by (rewrite length_drop, length_seqZ; lia).
    destruct (Z_lt_le_dec j (n - r)) as [Hlt|Hge].
    + rewrite lookup_app_l by (rewrite Hlen; lia).
      rewrite lookup_drop, lookup_seqZ_lt by lia.
      rewrite Z.mod_small by lia. f_equal. lia.
    + rewrite lookup_app_r by (rewrite Hlen; lia).
      rewrite Hlen, lookup_take_lt by lia.
      rewrite lookup_seqZ_lt by lia. f_equal.
      apply Z.mod_unique with (q := 1); lia.
Qed.

Lemma ring_connections_successor (c : Topology.TopologyConfig) (rank : Z)
  (rotations : list Z) (ring_id : nat) (connections : list Topology.Connection) :
  0 <= rank < Topology.num_nodes c ->
  Forall (fun rot => 0 <= rot < Topology.num_nodes c) rotations ->
  Topology.ring_connections c rank rotations ring_id connections
  = Returns (connections ++
      ((fun i => Topology.Conn rank ((rank + 1) mod Topology.num_nodes c) 0
                   (Z.of_nat i))
       <$> seq ring_id (length rotations))).
Proof.
  intros Hrank HF. revert ring_id connections.
  induction HF as [|r rotations Hr HF IH]; intros ring_id connections.
  - cbn. by rewrite app_nil_r.
  - cbn [Topology.ring_connections length seq fmap list_fmap].
    set (n := Topology.num_nodes c) in *.
    destruct (rotate_identity n r Hr) as (l & -> & Hnd & Hl).
    destruct (Z.eqb_spec n 0) as [?|_]; [lia|].
    assert (Hj : 0 <= (rank - r) mod n < n) by (apply Z.mod_pos_bound; lia).
    assert (Hpos : Topology.find_offset l rank = Z.to_nat ((rank - r) mod n)).
    { apply find_offset_lookup; [done|]. rewrite Hl by done. f_equal.
      rewrite Z.add_mod_idemp_l by lia.
      replace (rank - r + r) with rank by lia. apply Z.mod_small. lia. }
    rewrite Hpos, Z2Nat.id by lia.
    rewrite Z.rem_mod_nonneg by lia.
    assert (Hnp : 0 <= ((rank - r) mod n + 1) mod n < n)
      by (apply Z.mod_pos_bound; lia).
    rewrite Hl by done.
    rewrite Z.add_mod_idemp_l by lia.
    rewrite <- Z.add_assoc, Z.add_mod_idemp_l by lia.
    replace (rank - r + (1 + r)) with (rank + 1) by lia.
    rewrite IH. by rewrite <- app_assoc.
Qed.

(** X27. In a ring topology the configured rotations do not change who
    talks to whom: for a topology the constructor accepted and a rank
    from 0 to num_nodes-1, [getReduceScatterConnections] (and
    [getAllGatherConnections]) returns one connection per rotation, in
    order, numbered 0, 1, ... as ring ids, with data size 0, and every
    one of them leads from the rank to its successor
    [(rank + 1) mod num_nodes]. *)
Theorem ring_connections_ignore_rotation (c : Topology.TopologyConfig)
  (num_rings rank : Z) :
  Topology.initializeConnections c = Returns num_rings ->
  Topology.type c = "ring" ->
  0 <= rank < Topology.num_nodes c ->
  Topology.getReduceScatterConnections c rank
    = Returns ((fun i => Topology.Conn rank
                           ((rank + 1) mod Topology.num_nodes c) 0 (Z.of_nat i))
               <$> seq 0 (length (Topology.permutations c))) /\
  Topology.getAllGatherConnections c rank
    = Topology.getReduceScatterConnections c rank /\
  num_rings = Z.of_nat (length (Topology.permutations c)).
Proof.
  intros Hinit Ht Hrank.
  apply init_returns_valid in Hinit as (_ & Hn & Hp & HF & ->).
  unfold Topology.getAllGatherConnections, Topology.getReduceScatterConnections.
  rewrite Ht. cbn [String.eqb]. split; [|done].
  change (String.eqb "ring" "ring") with true. cbv iota.
  by rewrite ring_connections_successor.
Qed.

Lemma ring_connections_ignore_rotation_witness :
  Topology.getReduceScatterConnections (Topology.Config "ring" 4 [0; 3; 1]) 3
  = Returns ((fun i => Topology.Conn 3 ((3 + 1) mod 4) 0 (Z.of_nat i))
             <$> seq 0 (length [0; 3; 1])).
Proof.
  refine (proj1 (ring_connections_ignore_rotation
    (Topology.Config "ring" 4 [0; 3; 1]) 3 3 _ _ _)).
  - reflexivity.
  - reflexivity.
  - cbn. lia.
Defined.

(** X28. Hierarchical topology over an even number of nodes
    [2 * level_size]: every rank from 0 to num_nodes-1 gets a connection
    with ring id 0 to the next position of its own half (wrapping
    inside the half), and the ranks of the lower half get a second one
    with ring id 1 to the same position of the upper half,
    [rank + level_size]; all destinations are ranks of the topology. *)
Theorem hierarchical_connections_even (c : Topology.TopologyConfig)
  (level_size rank : Z) :
  Topology.type c = "hierarchical" ->
  1 <= level_size ->
  Topology.num_nodes c = 2 * level_size ->
  0 <= rank < 2 * level_size ->
  let next :=
    rank / level_size * level_size + (rank mod level_size + 1) mod level_size in
  Topology.getReduceScatterConnections c rank
    = Returns (Topology.Conn rank next 0 0 ::
               (if rank <? level_size
                then [Topology.Conn rank (rank + level_size) 0 1] else [])) /\
  rank / level_size * level_size <= next
    < rank / level_size * level_size + level_size /\
  0 <= next < 2 * level_size.
Proof.
  intros Ht Hls Hn Hrank next.
  assert (Hlevel : 0 <= rank / level_size < 2).
  { split; [apply Z.div_pos; lia | apply Z.div_lt_upper_bound; lia]. }
  assert (Hm : 0 <= (rank mod level_size + 1) mod level_size < level_size)
    by (apply Z.mod_pos_bound; lia).
  assert (Hp : 0 <= rank mod level_size < level_size)
    by (apply Z.mod_pos_bound; lia).
  split.
  2:{ subst next. clear Hp.
      set (m := (rank mod level_size + 1) mod level_size) in *. clearbody m.
      set (q := rank / level_size) in *. clearbody q.
      assert (Hq : q = 0 \/ q = 1) by lia. destruct Hq as [-> | ->]; lia. }
  unfold Topology.getReduceScatterConnections. rewrite Ht, Hn.
  change (String.eqb "hierarchical" "ring") with false.
  change (String.eqb "hierarchical" "hierarchical") with true. cbv iota.
  replace (Z.quot (2 * level_size) 2) with level_size
    by (rewrite Z.mul_comm, Z.quot_mul; lia).
  destruct (Z.eqb_spec level_size 0) as [?|_]; [lia|]. cbv zeta.
  rewrite (Z.quot_div_nonneg rank level_size) by lia.
  rewrite (Z.rem_mod_nonneg rank level_size) by lia.
  rewrite (Z.rem_mod_nonneg (rank mod level_size + 1) level_size) by lia.
  destruct (Z.ltb_spec rank level_size) as [Hlow|Hhigh].
  - rewrite (Z.div_small rank level_size) by lia.
    rewrite (Z.mod_small rank level_size) by lia. cbn [Z.ltb Z.compare].
    subst next. rewrite (Z.div_small rank level_size) by lia.
    rewrite (Z.mod_small rank level_size) by lia.
    cbn [app]. replace ((0 + 1) * level_size + rank) with (rank + level_size) by lia.
    reflexivity.
  - assert (1 <= rank / level_size) by (apply Z.div_le_lower_bound; lia).
    destruct (Z.ltb_spec (rank / level_size) 1) as [?|_]; [lia|]. done.
Qed.

Lemma hierarchical_connections_even_witness :
  Topology.getReduceScatterConnections
    (Topology.Config "hierarchical" 4 [0]) 1
  = Returns (Topology.Conn 1 (1 / 2 * 2 + (1 mod 2 + 1) mod 2) 0 0 ::
             (if 1 <? 2 then [Topology.Conn 1 (1 + 2) 0 1] else [])).
Proof.
  refine (proj1 (hierarchical_connections_even
    (Topology.Config "hierarchical" 4 [0]) 2 1 _ _ _ _)).
  - reflexivity.
  - lia.
  - reflexivity.
  - lia.
Defined.

(** X29. Hierarchical topology over an odd number of nodes
    [2 * level_size + 1] with [level_size] at least 2: the last rank
    lies in a third level by itself, and the single connection it is
    given leads to node [num_nodes], which is not a rank of the
    topology. *)
Theorem hierarchical_odd_last_rank (c : Topology.TopologyConfig)
  (level_size : Z) :
  Topology.type c = "hierarchical" ->
  2 <= level_size ->
  Topology.num_nodes c = 2 * level_size + 1 ->
  Topology.getReduceScatterConnections c (Topology.num_nodes c - 1)
  = Returns [Topology.Conn (Topology.num_nodes c - 1) (Topology.num_nodes c) 0 0].
Proof.
  intros Ht Hls Hn.
  unfold Topology.getReduceScatterConnections. rewrite Ht, Hn.
  change (String.eqb "hierarchical" "ring") with false.
  change (String.eqb "hierarchical" "hierarchical") with true. cbv iota.
  replace (Z.quot (2 * level_size + 1) 2) with level_size.
  2:{ rewrite Z.quot_div_nonneg by lia.
      apply Z.div_unique with (r := 1); lia. }
  destruct (Z.eqb_spec level_size 0) as [?|_]; [lia|]. cbv zeta.
  replace (2 * level_size + 1 - 1) with (2 * level_size) by lia.
  rewrite Z.quot_mul, Z.rem_mul by lia.
  rewrite Z.rem_mod_nonneg, Z.mod_small by lia.
  reflexivity.
Qed.

Lemma hierarchical_odd_last_rank_witness :
  Topology.getReduceScatterConnections
    (Topology.Config "hierarchical" 5 [0]) (5 - 1)
  = Returns [Topology.Conn (5 - 1) 5 0 0].
Proof.
  apply (hierarchical_odd_last_rank (Topology.Config "hierarchical" 5 [0]) 2).
  - reflexivity.
  - lia.
  - reflexivity.
Defined.

(** X30. A hierarchical topology of one node passes the constructor,
    but on it [getReduceScatterConnections] divides by a level size of
    zero, for every rank. *)
Theorem hierarchical_single_node (c : Topology.TopologyConfig)
  (num_rings rank : Z) :
  Topology.initializeConnections c = Returns num_rings ->
  Topology.type c = "hierarchical" ->
  Topology.num_nodes c = 1 ->
  Topology.getReduceScatterConnections c rank = Undefined.
Proof.
  intros _ Ht Hn. unfold Topology.getReduceScatterConnections.
  by rewrite Ht, Hn.
Qed.

Lemma hierarchical_single_node_witness :
  Topology.getReduceScatterConnections
    (Topology.Config "hierarchical" 1 [0]) 0 = Undefined.
Proof.
  apply (hierarchical_single_node (Topology.Config "hierarchical" 1 [0]) 2 0).
  - reflexivity.
  - reflexivity.
  - reflexivity.
Defined.
